(** * stash: a disk-backed, size- and count-bounded LRU blob cache

    Shallow embedding of the Go package [stash] (cache.go, file.go,
    deflate.go) together with the small part of the Go runtime it talks to
    (int64 arithmetic, [container/list], [net/url.QueryEscape], the [os]
    file calls), followed by the properties of the cache's bookkeeping. *)

From Stdlib Require Import ZArith Lia Ascii String.
From Stdlib.Strings Require Import Byte.
From stdpp Require Import base option list gmap strings sorting.

Local Open Scope Z_scope.

(** ** int64 arithmetic

    Go's [int64] wraps around silently; [wrap64] is the two's-complement
    reduction, and every counter update of the cache goes through it. *)

Definition max_int64 : Z := 2 ^ 63 - 1.
Definition min_int64 : Z := - 2 ^ 63.

Definition wrap64 (z : Z) : Z := (z + 2 ^ 63) mod 2 ^ 64 - 2 ^ 63.

Definition add64 (a b : Z) : Z := wrap64 (a + b).
Definition sub64 (a b : Z) : Z := wrap64 (a - b).

Definition in_int64 (z : Z) : Prop := min_int64 <= z <= max_int64.

(** ** Byte strings *)

Abbreviation bytes := (list byte).

(** [len(b)] of a byte slice, as the int64 that [io.Copy] reports. *)
Definition len64 (b : bytes) : Z := wrap64 (Z.of_nat (length b)).

(** ** Errors

    The sentinel errors and [FileError] are declared in the package's
    errors file; the [errno] values stand for the [*os.PathError]s the
    file calls return. *)

Inductive errno := ENOENT | EACCES | EPERM.

Inductive error :=
| ErrBadDir
| ErrBadSize
| ErrBadCap
| ErrNotFound
| ErrTooLarge
| ErrCorrupt                                  (* the decompressor rejects its input *)
| ErrRead                                     (* the caller's reader failed *)
| PathError (e : errno)
| FileError (Dir Key : string) (Err : error).

(** ** [net/url.QueryEscape]

    [escape] in file.go is [url.QueryEscape]: letters, digits and
    [-], [_], [.], [~] are kept, a space becomes [+], every other byte
    becomes [%XX] with upper-case hexadecimal digits. *)

Definition shouldEscape (c : ascii) : bool :=
  let n := nat_of_ascii c in
  negb ( (Nat.leb 97 n && Nat.leb n 122)
      || (Nat.leb 65 n && Nat.leb n 90)
      || (Nat.leb 48 n && Nat.leb n 57)
      || Nat.eqb n 45 || Nat.eqb n 95 || Nat.eqb n 46 || Nat.eqb n 126 ).

Definition upperhex (d : nat) : ascii :=
  if Nat.ltb d 10 then ascii_of_nat (48 + d) else ascii_of_nat (55 + d).

Fixpoint QueryEscape (s : string) : string :=
  match s with
  | EmptyString => EmptyString
  | String c s' =>
      if shouldEscape c then
        if Nat.eqb (nat_of_ascii c) 32 then String "+" (QueryEscape s')
        else String "%" (String (upperhex (Nat.div (nat_of_ascii c) 16))
                          (String (upperhex (Nat.modulo (nat_of_ascii c) 16))
                            (QueryEscape s')))
      else String c (QueryEscape s')
  end.

Definition escape (v : string) : string := QueryEscape v.

(** ** Paths

    [filepath.Join dir name] on the paths the cache builds, from its
    directory and a listed or escaped file name: for a directory without
    trailing separator and a name that is one path element (not empty, not
    [.] or [..]) it is the two joined by the separator.  The lexical
    cleaning that [filepath.Join] applies to other arguments is not
    modelled. *)

Definition Join (dir name : string) : string := dir +:+ "/" +:+ name.

Fixpoint has_sep (s : string) : bool :=
  match s with
  | EmptyString => false
  | String c s' => Ascii.eqb c "/" || has_sep s'
  end.

(** [TrimRight s "/"], as [New] cleans its directory argument. *)
Fixpoint TrimRight (s : string) : string :=
  match s with
  | EmptyString => EmptyString
  | String c s' =>
      match TrimRight s' with
      | EmptyString => if Ascii.eqb c "/" then EmptyString else String c EmptyString
      | t => String c t
      end
  end.

(** What follows the last separator of a path (the path itself when it has
    none). *)
Fixpoint after_last_sep (s : string) : string :=
  match s with
  | EmptyString => EmptyString
  | String c s' =>
      if has_sep s' then after_last_sep s'
      else if Ascii.eqb c "/" then s' else String c s'
  end.

(** [filepath.Base]: the last element of the path.  Trailing separators
    are dropped before the last element is taken; the empty path gives
    [.], a path of separators only gives the separator. *)
Definition Base (s : string) : string :=
  match s with
  | EmptyString => "."%string
  | _ =>
      match after_last_sep (TrimRight s) with
      | EmptyString => "/"%string
      | b => b
      end
  end.

(** ** Results *)

Inductive res (A : Type) :=
| Ok (a : A)
| Err (e : error).
Arguments Ok {A} a.
Arguments Err {A} e.

(** ** The file system

    Regular files by full path.  [denied] are the paths that can be
    neither created, opened nor listed, [pinned] the paths that cannot be
    unlinked; they make every failure branch of the cache reachable. *)

Record FS := mkFS {
  files : gmap string bytes;
  denied : gset string;
  pinned : gset string
}.

Definition set_files (f : gmap string bytes → gmap string bytes) (fs : FS) : FS :=
  mkFS (f (files fs)) (denied fs) (pinned fs).

(** [os.Create]: creates or truncates. *)
Definition os_Create (path : string) (fs : FS) : FS * option error :=
  if decide (path ∈ denied fs) then (fs, Some (PathError EACCES))
  else (set_files (insert path []) fs, None).

(** [os.Open] followed by reading the file to its end. *)
Definition os_Open (path : string) (fs : FS) : res bytes :=
  if decide (path ∈ denied fs) then Err (PathError EACCES)
  else match files fs !! path with
       | Some b => Ok b
       | None => Err (PathError ENOENT)
       end.

(** [os.Remove]: a missing file is an error ([ENOENT]), as is a file
    that may not be unlinked. *)
Definition os_Remove (path : string) (fs : FS) : FS * option error :=
  match files fs !! path with
  | None => (fs, Some (PathError ENOENT))
  | Some _ =>
      if decide (path ∈ pinned fs) then (fs, Some (PathError EPERM))
      else (set_files (delete path) fs, None)
  end.

(** [os.Stat(path).Size()]. *)
Definition os_Stat (path : string) (fs : FS) : res Z :=
  match files fs !! path with
  | Some b => Ok (len64 b)
  | None => Err (PathError ENOENT)
  end.

(** [os.Rename]. *)
Definition os_Rename (src dst : string) (fs : FS) : FS * option error :=
  match files fs !! src with
  | None => (fs, Some (PathError ENOENT))
  | Some b =>
      if decide (dst ∈ denied fs) then (fs, Some (PathError EACCES))
      else if decide (src ∈ pinned fs) then (fs, Some (PathError EPERM))
      else (set_files (λ f, <[dst := b]> (delete src f)) fs, None)
  end.

(** Directory listing: [os.Open(dir)] then [Readdir(-1)]. *)

Record FileInfo := mkFileInfo { Name : string; FSize : Z }.

Fixpoint cut_prefix (p s : string) : option string :=
  match p with
  | EmptyString => Some s
  | String a p' =>
      match s with
      | String b s' => if Ascii.eqb a b then cut_prefix p' s' else None
      | EmptyString => None
      end
  end.

Definition file_name (s : string) : bool :=
  negb (has_sep s) && negb (String.eqb s "").

Definition entry_of (dir : string) (pb : string * bytes) : option FileInfo :=
  match cut_prefix (dir +:+ "/") pb.1 with
  | Some name => if file_name name then Some (mkFileInfo name (len64 pb.2)) else None
  | None => None
  end.

Definition os_ReadDir (dir : string) (fs : FS) : res (list FileInfo) :=
  if decide (dir ∈ denied fs) then Err (PathError EACCES)
  else Ok (omap (entry_of dir) (map_to_list (files fs))).

(** ** The codec (deflate.go)

    [NewDeflateWriter] and [NewDeflateReader] wrap the lz4 stream writer
    and reader.  The codec is a black box with one law: reading back what
    was written gives the input. *)

Class Codec := {
  compress : bytes → bytes;
  decompress : bytes → option bytes;
  decompress_compress : ∀ v, decompress (compress v) = Some v
}.

(** What [Get] hands back: the opened file, or the file behind a
    [DeflateReader]. *)
Inductive ReadCloser :=
| FileReader (b : bytes)
| DeflateReader (src : bytes).

(** [ioutil.ReadAll] on the returned stream. *)
Definition ReadAll `{Codec} (r : ReadCloser) : res bytes :=
  match r with
  | FileReader b => Ok b
  | DeflateReader src =>
      match decompress src with
      | Some v => Ok v
      | None => Err ErrCorrupt
      end
  end.

(** An [io.Reader]: the bytes it yields, and the error (if any) it ends
    with instead of [io.EOF]. *)
Record Reader := mkReader { r_data : bytes; r_err : option error }.

(** [bytes.NewReader]. *)
Definition bytes_NewReader (val : bytes) : Reader := mkReader val None.

(** ** [container/list]

    An element is a heap cell: [eid] is its address, [Value] the [*Meta]
    it holds (never written after creation).  The front of [items] is the
    front of the list. *)

Record Meta := mkMeta { Key : string; Size : Z; Path : string }.

Record Element := mkElement { eid : nat; Value : Meta }.

Record List := mkList { items : list Element; nextid : nat }.

Definition list_New : List := mkList [] 0.

Definition Back (l : List) : option Element := last (items l).

(** [l.Remove(e)]: unlinks [e] if it is an element of [l]. *)
Definition Remove (e : Element) (l : List) : List :=
  mkList (filter (λ x, eid x ≠ eid e) (items l)) (nextid l).

(** [l.PushFront(v)]: a new element at the front. *)
Definition PushFront (v : Meta) (l : List) : Element * List :=
  let e := mkElement (nextid l) v in
  (e, mkList (e :: items l) (S (nextid l))).

(** [l.MoveToFront(e)]: nothing happens when [e] is not in [l]. *)
Definition MoveToFront (e : Element) (l : List) : List :=
  match list_find (λ x, eid x = eid e) (items l) with
  | Some (_, x) => mkList (x :: filter (λ y, eid y ≠ eid e) (items l)) (nextid l)
  | None => l
  end.

(** ** The cache (cache.go)

    The struct fields keep their names, except [list], written [list_].
    The map holds pointers to list elements; the lock is not modelled, each
    operation runs as one atomic step on the pair of the cache and the file
    system. *)

Record Cache := mkCache {
  dir : string;          (* path to storage directory *)
  size : Z;              (* total size of files allowed *)
  cap : Z;               (* total number of files allowed *)
  sizeUsed : Z;          (* total size of files added *)
  capUsed : Z;           (* total number of files added *)
  list_ : List;          (* list of items in cache *)
  m : gmap string Element;  (* map of items in list *)
  useDeflate : bool
}.

Definition World : Type := Cache * FS.

Definition validDir (d : string) : bool := negb (String.eqb d "").

(** [New]. *)
Definition New (d : string) (sz cp : Z) (deflate : bool) : res Cache :=
  if negb (validDir d) then Err ErrBadDir
  else if sz <=? 0 then Err ErrBadSize
  else if cp <=? 0 then Err ErrBadCap
  else Ok (mkCache (TrimRight d) sz cp 0 0 list_New ∅ deflate).

(** [addMeta]: both counters are bumped first, then an element already
    mapped at [key] is unlinked, and the new one is pushed to the front. *)
Definition addMeta (key path : string) (length : Z) (c : Cache) : Cache :=
  let l1 := match m c !! key with
            | Some item => Remove item (list_ c)
            | None => list_ c
            end in
  let '(listElement, l2) := PushFront (mkMeta key length path) l1 in
  mkCache (dir c) (size c) (cap c)
          (add64 (sizeUsed c) length) (add64 (capUsed c) 1)
          l2 (<[key := listElement]> (m c)) (useDeflate c).

(** [evictLast]: removes the last file following the LRU policy. *)
Definition evictLast (w : World) : World * option error :=
  let '(c, fs) := w in
  match Back (list_ c) with
  | Some last =>
      let item := Value last in
      match os_Remove (Path item) fs with
      | (fs', None) =>
          ((mkCache (dir c) (size c) (cap c)
                    (sub64 (sizeUsed c) (Size item)) (sub64 (capUsed c) 1)
                    (Remove last (list_ c)) (delete (Key item) (m c))
                    (useDeflate c), fs'), None)
      | (fs', Some e) => ((c, fs'), Some e)
      end
  | None => (w, None)
  end.

(** The loop [for n+c.sizeUsed > c.size { evictLast }] of [validate].
    [fuel] bounds the number of iterations; [None] means the bound was
    reached with the condition still true. *)
Fixpoint evictLoop (fuel : nat) (n : Z) (w : World) : option (World * option error) :=
  if size w.1 <? add64 n (sizeUsed w.1) then
    match fuel with
    | O => None
    | S fuel' =>
        match evictLast w with
        | (w', Some e) => Some (w', Some e)
        | (w', None) => evictLoop fuel' n w'
        end
    end
  else Some (w, None).

(** [validate]: ensures the file satisfies the constraints of the cache. *)
Definition validate (fuel : nat) (path : string) (n : Z) (w : World)
  : option (World * option error) :=
  let '(c, fs) := w in
  if size c <? n then
    Some ((c, (os_Remove path fs).1), Some (FileError (dir c) "" ErrTooLarge))
  else
    match evictLoop fuel n w with
    | None => None
    | Some (w1, Some e) => Some (w1, Some e)
    | Some (w1, None) =>
        if cap w1.1 <? add64 (capUsed w1.1) 1 then Some (evictLast w1)
        else Some (w1, None)
    end.

(** ** Storage (file.go) *)

(** [io.Copy(dst, r)] onto the file at [path].  The count is the number of
    bytes taken from [r]: through the deflate writer that is still the
    number of input bytes ([Write] reports how much of its argument it
    consumed), while the file receives the compressed stream. *)
Definition io_Copy `{Codec} (deflate : bool) (path : string) (r : Reader) (fs : FS)
  : FS * Z * option error :=
  (set_files (insert path (if deflate then compress (r_data r) else r_data r)) fs,
   len64 (r_data r), r_err r).

(** [writeFile]: writes a new file to the cache storage. *)
Definition writeFile `{Codec} (d key : string) (r : Reader) (deflate : bool) (fs : FS)
  : FS * (string * Z * option error) :=
  let path := Join d key in
  match os_Create path fs with
  | (fs1, Some e) => (fs1, (""%string, 0, Some (FileError d key e)))
  | (fs1, None) =>
      let '(fs2, sz, err) := io_Copy deflate path r fs1 in
      match err with
      | Some e => (fs2, (""%string, 0, Some (FileError d key e)))
      | None => (fs2, (path, sz, None))
      end
  end.

(** [filesize]. *)
Definition filesize (path : string) (fs : FS) : res Z :=
  match os_Stat path fs with
  | Ok n => Ok n
  | Err e => Err (FileError path (Base path) e)
  end.

(** ** Public operations *)

(** [PutReader]. *)
Definition PutReader `{Codec} (fuel : nat) (key : string) (r : Reader) (w : World)
  : option (World * option error) :=
  let '(c, fs) := w in
  match writeFile (dir c) (escape key) r (useDeflate c) fs with
  | (fs1, (_, _, Some e)) => Some ((c, fs1), Some e)
  | (fs1, (path, n, None)) =>
      match validate fuel path n (c, fs1) with
      | None => None
      | Some (w1, Some e) => Some (w1, Some e)
      | Some ((c1, fs2), None) => Some ((addMeta (escape key) path n c1, fs2), None)
      end
  end.

(** [Put]. *)
Definition Put `{Codec} (fuel : nat) (key : string) (val : bytes) (w : World)
  : option (World * option error) :=
  PutReader fuel key (bytes_NewReader val) w.

(** The first half of [PutFile], up to the capacity check: the source
    file is sized, then moved into the cache, or streamed through the
    deflate writer and removed.  Yields the file system, the byte count
    [n] handed to [validate], and the error if one occurred. *)
Definition storeFile `{Codec} (c : Cache) (key srcpath : string) (fs : FS)
  : FS * Z * option error :=
  match filesize srcpath fs with
  | Err e => (fs, 0, Some e)
  | Ok n0 =>
      let path := Join (dir c) (escape key) in
      if useDeflate c then
        match os_Create path fs with
        | (fs1, Some e) => (fs1, n0, Some e)
        | (fs1, None) =>
            match os_Open srcpath fs1 with
            | Err e => (fs1, n0, Some e)
            | Ok src =>
                let '(fs2, n, err) := io_Copy true path (mkReader src None) fs1 in
                match err with
                | Some e => (fs2, n, Some e)
                | None => ((os_Remove srcpath fs2).1, n, None)
                end
            end
        end
      else
        let '(fs1, err) := os_Rename srcpath path fs in (fs1, n0, err)
  end.

(** [PutFile]. *)
Definition PutFile `{Codec} (fuel : nat) (key srcpath : string) (w : World)
  : option (World * option error) :=
  let '(c, fs) := w in
  let path := Join (dir c) (escape key) in
  match storeFile c key srcpath fs with
  | (fs1, _, Some e) => Some ((c, fs1), Some e)
  | (fs1, n, None) =>
      match validate fuel path n (c, fs1) with
      | None => None
      | Some (w1, Some e) => Some (w1, Some e)
      | Some ((c1, fs2), None) => Some ((addMeta (escape key) path n c1, fs2), None)
      end
  end.

(** [Get]: a reader for a blob in the cache, or [ErrNotFound]. *)
Definition Get (key : string) (w : World) : World * res ReadCloser :=
  let '(c, fs) := w in
  match m c !! escape key with
  | Some item =>
      let c' := mkCache (dir c) (size c) (cap c) (sizeUsed c) (capUsed c)
                        (MoveToFront item (list_ c)) (m c) (useDeflate c) in
      match os_Open (Path (Value item)) fs with
      | Err e => ((c', fs), Err e)
      | Ok b => ((c', fs), Ok (if useDeflate c then DeflateReader b else FileReader b))
      end
  | None => (w, Err ErrNotFound)
  end.

(** [Warmup]: indexes every file of the storage directory. *)
Definition Warmup (w : World) : World * option error :=
  let '(c, fs) := w in
  match os_ReadDir (dir c) fs with
  | Err e => (w, Some e)
  | Ok fileInfo =>
      (foldl (λ c file, addMeta (Name file) (Join (dir c) (Name file)) (FSize file) c)
             c fileInfo, fs, None)
  end.

(** The keys in recency order, most recently used first. *)
Definition recency (c : Cache) : list string :=
  (λ e, Key (Value e)) <$> items (list_ c).

(** The sizes of the entries currently in the list. *)
Definition entry_sizes (c : Cache) : list Z :=
  (λ e, Size (Value e)) <$> items (list_ c).

Definition sumZ (l : list Z) : Z := foldr Z.add 0 l.

(** ** A concrete codec

    The simplest frame a stream compressor can emit: a four-byte magic
    number followed by the payload as one stored block.  It instantiates
    [Codec] wherever a property is evaluated on concrete data. *)

Definition frame_magic : bytes := [x04; x22; x4d; x18].

Definition frame_compress (v : bytes) : bytes := frame_magic ++ v.

Definition frame_decompress (b : bytes) : option bytes :=
  match b with
  | x04 :: x22 :: x4d :: x18 :: v => Some v
  | _ => None
  end.

Definition StoredFrame : Codec :=
  {| compress := frame_compress;
     decompress := frame_decompress;
     decompress_compress := λ v, eq_refl |}.

(** ** Helpers for concrete runs *)

Definition B (s : string) : bytes := list_byte_of_string s.

Definition emptyFS : FS := mkFS ∅ ∅ ∅.

(** Runs [Put]s in order from a fresh cache, ignoring errors as long as
    every call returns. *)
Fixpoint puts (fuel : nat) (kvs : list (string * string)) (w : World) : option World :=
  match kvs with
  | [] => Some w
  | (k, v) :: kvs' =>
      match @Put StoredFrame fuel k (B v) w with
      | Some (w', _) => puts fuel kvs' w'
      | None => None
      end
  end.

Definition fresh (sz cp : Z) (deflate : bool) : option World :=
  match New "/tmp/stash" sz cp deflate with
  | Ok c => Some (c, emptyFS)
  | Err _ => None
  end.

Definition run (sz cp : Z) (kvs : list (string * string)) : option (list string) :=
  w ← fresh sz cp false; w' ← puts 10 kvs w; Some (recency w'.1).

(** ** Well-formed lists

    Two elements of one list never share an address, and [nextid] is
    above every address handed out. *)

Definition wf_list (l : List) : Prop :=
  NoDup (eid <$> items l) ∧ Forall (λ e, (eid e < nextid l)%nat) (items l).

(** ** Concrete states *)

(** The fresh ten-byte, forty-entry cache, and the same cache after
    [Put("a", "abcdefgh")]. *)
Definition cache_new : Cache :=
  mkCache "/tmp/stash" 10 40 0 0 list_New ∅ false.

Definition cache_a : Cache :=
  mkCache "/tmp/stash" 10 40 8 1
          (mkList [mkElement 0 (mkMeta "a" 8 "/tmp/stash/a")] 1)
          (<["a" := mkElement 0 (mkMeta "a" 8 "/tmp/stash/a")]> ∅) false.

Definition fs_a : FS := mkFS (<["/tmp/stash/a" := B "abcdefgh"]> ∅) ∅ ∅.

(** The cache of [TestSizeEviction] after [Put("a", "abcdefgh")] and
    [Put("b", "ij")], and the storage directory at that point. *)
Definition elem_a : Element := mkElement 0 (mkMeta "a" 8 "/tmp/stash/a").
Definition elem_b : Element := mkElement 1 (mkMeta "b" 2 "/tmp/stash/b").

Definition cache_ab : Cache :=
  mkCache "/tmp/stash" 10 40 10 2 (mkList [elem_b; elem_a] 2)
          (<["b" := elem_b]> (<["a" := elem_a]> ∅)) false.

Definition fs_ab : FS :=
  mkFS (<["/tmp/stash/b" := B "ij"]> (<["/tmp/stash/a" := B "abcdefgh"]> ∅)) ∅ ∅.

(** The same directory after something else deleted [a]'s file. *)
Definition fs_b_only : FS := mkFS (<["/tmp/stash/b" := B "ij"]> ∅) ∅ ∅.

(** The same directory with [a]'s file protected against unlinking. *)
Definition fs_ab_pinned : FS :=
  mkFS (files fs_ab) ∅ {["/tmp/stash/a"%string]}.

(** ** Eviction of an entry whose file is already gone

    The reading under which such a victim is dropped from the index
    without an error: the entry leaves the ordering and the map, both
    counters are decremented, and [evictLast] returns [nil]. *)

Definition evict_tolerates_absent (c : Cache) (fs : FS) : Prop :=
  ∀ l e, items (list_ c) = l ++ [e] →
    files fs !! Path (Value e) = None →
    ∃ c' fs', evictLast (c, fs) = ((c', fs'), None)
      ∧ items (list_ c') = l
      ∧ m c' = delete (Key (Value e)) (m c)
      ∧ sizeUsed c' = sub64 (sizeUsed c) (Size (Value e))
      ∧ capUsed c' = sub64 (capUsed c) 1.

(** ** Rejection of a blob that is too large

    The reading under which the rejected blob's file is always gone
    afterwards: whenever the write succeeded with a count above [size],
    [PutReader] returns the too-large error, keeps the cache as it was and
    leaves no file at the blob's path. *)

Definition too_large_removes_file `{Codec} (key : string) (r : Reader) (w : World) : Prop :=
  let path := Join (dir w.1) (escape key) in
  ∀ fs1 n,
    writeFile (dir w.1) (escape key) r (useDeflate w.1) w.2 = (fs1, (path, n, None)) →
    size w.1 < n →
    ∀ fuel, ∃ fs',
      PutReader fuel key r w
        = Some ((w.1, fs'), Some (FileError (dir w.1) "" ErrTooLarge))
      ∧ files fs' !! path = None.

(** ** Counter consistency

    The aggregate counters agree with the recency list: [sizeUsed] is the
    sum of the entries' sizes and [capUsed] their number. *)

Definition counters_consistent (c : Cache) : Prop :=
  sizeUsed c = sumZ (entry_sizes c)
  ∧ capUsed c = Z.of_nat (length (items (list_ c))).

(** Runs [Put]s in order; [Some] only when every call returned [nil]. *)
Fixpoint puts_ok `{Codec} (fuel : nat) (kvs : list (string * string)) (w : World)
  : option World :=
  match kvs with
  | [] => Some w
  | (k, v) :: kvs' =>
      match Put fuel k (B v) w with
      | Some (w', None) => puts_ok fuel kvs' w'
      | _ => None
      end
  end.

(** A ten-byte cache after [Put("a", "abcdefgh")] and [Put("a", "ij")]. *)
Definition elem_a2 : Element := mkElement 1 (mkMeta "a" 2 "/tmp/stash/a").

Definition cache_aa : Cache :=
  mkCache "/tmp/stash" 10 40 10 2 (mkList [elem_a2] 2) (<["a" := elem_a2]> ∅) false.

Definition fs_aa : FS := mkFS (<["/tmp/stash/a" := B "ij"]> ∅) ∅ ∅.

(** ** The budget invariant

    [no_overflow]: the configuration is valid and far enough from the
    int64 limits that neither [n + sizeUsed] nor [capUsed + 1] can wrap.
    [budget_inv]: both counters are within their budgets and bound the
    recency list from above; the last clause says that a cache whose
    counter has reached [cap] still has something to evict. *)

Definition no_overflow (c : Cache) : Prop :=
  0 < size c ∧ 2 * size c <= max_int64 ∧ 0 < cap c < max_int64.

Definition same_config (c c' : Cache) : Prop :=
  dir c' = dir c ∧ size c' = size c ∧ cap c' = cap c ∧ useDeflate c' = useDeflate c.

Definition budget_inv (c : Cache) : Prop :=
  no_overflow c
  ∧ wf_list (list_ c)
  ∧ Forall (λ s, 0 <= s) (entry_sizes c)
  ∧ sumZ (entry_sizes c) <= sizeUsed c <= size c
  ∧ Z.of_nat (length (items (list_ c))) <= capUsed c <= cap c
  ∧ capUsed c - Z.of_nat (length (items (list_ c))) < cap c.


(** ** Reading blobs back

    [encode]: what a cache with the given compression flag keeps on disk
    for a blob.  [gets]: [Get] on each key in turn, each returned stream
    read to its end.  [serves]: the index maps the key to an entry whose
    file opens and holds the blob. *)

Definition encode `{Codec} (deflate : bool) (v : bytes) : bytes :=
  if deflate then compress v else v.

Fixpoint gets `{Codec} (keys : list string) (w : World) : World * list (res bytes) :=
  match keys with
  | [] => (w, [])
  | k :: ks =>
      let '(w1, r) := Get k w in
      let '(w2, rs) := gets ks w1 in
      (w2, match r with Ok s => ReadAll s | Err e => Err e end :: rs)
  end.

Definition serves `{Codec} (w : World) (key : string) (v : bytes) : Prop :=
  ∃ e, m w.1 !! escape key = Some e
     ∧ os_Open (Path (Value e)) w.2 = Ok (encode (useDeflate w.1) v).

(** Every mapped entry points at the file named by its key. *)
Definition paths_by_key (c : Cache) : Prop :=
  ∀ k e, m c !! k = Some e → Path (Value e) = Join (dir c) k.

(** A storage directory left behind by a compressing cache: the blobs of
    the keys [io/ioutil] and [gopher], and a fresh cache opened on it. *)
Definition fs_warm : FS :=
  mkFS (<["/tmp/stash/io%2Fioutil" := frame_compress (B "Package ioutil")]>
          (<["/tmp/stash/gopher" := frame_compress (B "The Go gopher")]> ∅)) ∅ ∅.

Definition cache_warm0 : Cache :=
  mkCache "/tmp/stash" 2048000 40 0 0 list_New ∅ true.

(** ** The index invariant

    [index_ok]: the map and the recency list describe the same entries:
    a key is mapped to an element exactly when that element is in the list
    and carries the key.  [entry_paths]: every entry sits at the path of
    its own key.  [Reachable]: the caches that [New] followed by any of
    the public operations can produce, whatever the file system holds at
    each call and whatever each call returns. *)

Definition index_ok (c : Cache) : Prop :=
  wf_list (list_ c)
  ∧ ∀ k e, m c !! k = Some e ↔ e ∈ items (list_ c) ∧ Key (Value e) = k.

Definition entry_paths (c : Cache) : Prop :=
  Forall (λ e, Path (Value e) = Join (dir c) (Key (Value e))) (items (list_ c)).

Inductive Reachable `{Codec} : Cache → Prop :=
| Reachable_New d sz cp deflate c :
    New d sz cp deflate = Ok c → Reachable c
| Reachable_PutReader c fs fuel key r c' fs' err :
    Reachable c →
    PutReader fuel key r (c, fs) = Some ((c', fs'), err) →
    Reachable c'
| Reachable_PutFile c fs fuel key srcpath c' fs' err :
    Reachable c →
    PutFile fuel key srcpath (c, fs) = Some ((c', fs'), err) →
    Reachable c'
| Reachable_Get c fs key c' fs' r :
    Reachable c →
    Get key (c, fs) = ((c', fs'), r) →
    Reachable c'
| Reachable_Warmup c fs c' fs' err :
    Reachable c →
    Warmup (c, fs) = ((c', fs'), err) →
    Reachable c'.

(** ** [Keys]

    [sort.Strings] orders byte-wise, as [String.leb] does.  [Keys] fills a
    slice of [len(c.m)] strings from the back of the list to its front and
    sorts it; [None] stands for the index-out-of-range panic of [keys[i]]
    when the list is longer than the map. *)

Definition string_le (a b : string) : Prop := String.leb a b = true.

#[global] Instance string_le_dec : RelDecision string_le :=
  λ a b, decide (String.leb a b = true).

Definition sort_Strings (l : list string) : list string := merge_sort string_le l.

Definition Keys (c : Cache) : option (list string) :=
  let n := base.size (m c) in
  let found := reverse (recency c) in
  if decide (length found ≤ n)%nat
  then Some (sort_Strings (found ++ replicate (n - length found) ""%string))
  else None.

(** The keys of [TestSizeEviction], as [Keys] reports them after each
    [Put]. *)
Definition run_Keys (sz cp : Z) (kvs : list (string * string)) : option (list string) :=
  w ← fresh sz cp false; w' ← puts 10 kvs w; Keys w'.1.

(** ** Caches whose counters are exact

    [sound]: the budget invariant, the index invariant and exact counters
    together.  [NoReput]: the caches produced from [New] by [Get]s and by
    [Put]s of keys that are not cached at the time of the call. *)

Definition sound (c : Cache) : Prop :=
  budget_inv c ∧ index_ok c ∧ entry_paths c ∧ counters_consistent c.

Inductive NoReput `{Codec} (d : string) (sz cp : Z) (deflate : bool) : Cache → Prop :=
| NoReput_New c :
    New d sz cp deflate = Ok c →
    NoReput d sz cp deflate c
| NoReput_Put c fs fuel key val c' fs' err :
    NoReput d sz cp deflate c →
    Z.of_nat (length val) <= max_int64 →
    m c !! escape key = None →
    Put fuel key val (c, fs) = Some ((c', fs'), err) →
    NoReput d sz cp deflate c'
| NoReput_Get c fs key c' fs' r :
    NoReput d sz cp deflate c →
    Get key (c, fs) = ((c', fs'), r) →
    NoReput d sz cp deflate c'.

(** [tracked]: the index invariant, with [sizeUsed] the int64 value of
    the sum of the entries' sizes.  Unlike [sound] it asks nothing of the
    configuration: the sum may wrap. *)
Definition tracked (c : Cache) : Prop :=
  index_ok c ∧ entry_paths c ∧ sizeUsed c = wrap64 (sumZ (entry_sizes c)).

(** What eviction does between two states of the world: the new list is
    the old one without a suffix, the files of the dropped entries are
    gone, and no file has appeared. *)
Definition evicts (w w' : World) : Prop :=
  ∃ evicted,
    items (list_ w.1) = items (list_ w'.1) ++ evicted
    ∧ Forall (λ e, files w'.2 !! Path (Value e) = None) evicted
    ∧ ∀ p, files w.2 !! p = None → files w'.2 !! p = None.

(** ** Decoding an escaped key

    The inverse of [QueryEscape] on its image ([+] is a space, [%XX] the
    byte with that hexadecimal code); it serves to show that [escape] never
    maps two keys to one name. *)

Definition unhex (c : ascii) : nat :=
  let n := nat_of_ascii c in
  if Nat.leb 65 n then Nat.sub n 55 else Nat.sub n 48.

Fixpoint unescape (s : string) : string :=
  match s with
  | EmptyString => EmptyString
  | String c s1 =>
      if Ascii.eqb c "+" then String " " (unescape s1)
      else if Ascii.eqb c "%" then
        match s1 with
        | String h (String l s2) =>
            String (ascii_of_nat (Nat.add (Nat.mul 16 (unhex h)) (unhex l))) (unescape s2)
        | _ => EmptyString
        end
      else String c (unescape s1)
  end.


(* ================================================================== *)
(** * Properties *)

(** ** The package's own tests, replayed on the model *)

Example escape_plain : escape "hello-world" = "hello-world"%string.
Proof. reflexivity. Qed.

Example escape_slash : escape "io/ioutil" = "io%2Fioutil"%string.
Proof. reflexivity. Qed.

Example escape_space : escape "a b~c" = "a+b~c"%string.
Proof. reflexivity. Qed.

Example escape_twice : escape (escape "io/ioutil") = "io%252Fioutil"%string.
Proof. reflexivity. Qed.

Example trim_dir : TrimRight "/tmp/stash//" = "/tmp/stash"%string.
Proof. reflexivity. Qed.

Example base_names :
  Base "/tmp/upload" = "upload"%string
  ∧ Base "upload" = "upload"%string
  ∧ Base "/tmp/up/" = "up"%string
  ∧ Base "/tmp//up//" = "up"%string
  ∧ Base "" = "."%string
  ∧ Base "/" = "/"%string
  ∧ Base "///" = "/"%string
  ∧ Base "." = "."%string.
Proof. repeat split; reflexivity. Qed.

(** TestSizeEviction *)
Example size_eviction_1 :
  run 10 40 [("a", "abcdefgh"); ("b", "ij")] = Some ["b"; "a"]%string.
Proof. vm_compute. reflexivity. Qed.

Example size_eviction_2 :
  run 10 40 [("a", "abcdefgh"); ("b", "ij"); ("c", "k")] = Some ["c"; "b"]%string.
Proof. vm_compute. reflexivity. Qed.

Example size_eviction_3 :
  run 10 40 [("a", "abcdefgh"); ("b", "ij"); ("c", "k"); ("d", "l"); ("e", "m")]
  = Some ["e"; "d"; "c"; "b"]%string.
Proof. vm_compute. reflexivity. Qed.

Example size_eviction_4 :
  run 10 40 [("a", "abcdefgh"); ("b", "ij"); ("c", "k"); ("d", "l"); ("e", "m");
             ("f", "nopqrstuvw")]
  = Some ["f"]%string.
Proof. vm_compute. reflexivity. Qed.

(** TestCapEviction *)
Example cap_eviction :
  run 2048 3 [("a", "abcdefg"); ("b", "hi"); ("c", "k"); ("d", "l"); ("e", "m");
              ("f", "nopqrstuv")]
  = Some ["f"; "e"; "d"]%string.
Proof. vm_compute. reflexivity. Qed.

(** TestNew *)
Example new_bad_dir : New "" 2048 4 false = Err ErrBadDir.
Proof. reflexivity. Qed.

Example new_bad_size : New "/tmp/stash" 0 0 false = Err ErrBadSize.
Proof. reflexivity. Qed.

Example new_bad_cap : New "/tmp/stash" 2048 0 false = Err ErrBadCap.
Proof. reflexivity. Qed.

Example cache_ab_reached :
  (w ← fresh 10 40 false; puts 10 [("a", "abcdefgh"); ("b", "ij")]%string w)
  = Some (cache_ab, fs_ab).
Proof. vm_compute. reflexivity. Qed.

(** ** int64 *)

Lemma wrap64_id (z : Z) : in_int64 z → wrap64 z = z.
Proof.
  unfold in_int64, min_int64, max_int64, wrap64. intros Hz.
  rewrite Z.mod_small; lia.
Qed.

Lemma wrap64_range (z : Z) : in_int64 (wrap64 z).
Proof.
  unfold in_int64, min_int64, max_int64, wrap64.
  pose proof (Z.mod_pos_bound (z + 2 ^ 63) (2 ^ 64) ltac:(lia)). lia.
Qed.

(** ** [container/list] *)

Lemma filter_all {A} (P : A → Prop) `{∀ x, Decision (P x)} (l : list A) :
  Forall P l → filter P l = l.
Proof.
  induction 1 as [|x l Hx _ IH]; [done|].
  rewrite filter_cons_True by done. by rewrite IH.
Qed.

Lemma filter_none {A} (P : A → Prop) `{∀ x, Decision (P x)} (l : list A) :
  Forall (λ x, ¬ P x) l → filter P l = [].
Proof.
  induction 1 as [|x l Hx _ IH]; [done|].
  by rewrite filter_cons_False.
Qed.

(** Unlinking the back element drops exactly the last item. *)
Lemma Remove_back (l : list Element) (e : Element) (n : nat) :
  NoDup (eid <$> (l ++ [e])) →
  Remove e (mkList (l ++ [e]) n) = mkList l n.
Proof.
  intros Hnd. unfold Remove; simpl. f_equal.
  rewrite fmap_app in Hnd. apply NoDup_app in Hnd as (_ & Hdisj & _).
  rewrite filter_app, filter_all, filter_none, app_nil_r; [done|..].
  - apply Forall_singleton. tauto.
  - apply Forall_forall. intros x Hx Heq.
    apply (Hdisj (eid x)); [by apply list_elem_of_fmap_2|].
    rewrite Heq. simpl. set_solver.
Qed.

Lemma Back_snoc (l : list Element) (e : Element) (n : nat) :
  Back (mkList (l ++ [e]) n) = Some e.
Proof. unfold Back; simpl. apply last_snoc. Qed.

(** ** Eviction *)

(** What [evictLast] does, case by case. *)
Lemma evictLast_cases (c : Cache) (fs : FS) :
  NoDup (eid <$> items (list_ c)) →
  (items (list_ c) = [] → evictLast (c, fs) = ((c, fs), None))
  ∧ (∀ l e, items (list_ c) = l ++ [e] →
       match os_Remove (Path (Value e)) fs with
       | (fs', None) =>
           ∃ c', evictLast (c, fs) = ((c', fs'), None)
             ∧ list_ c' = mkList l (nextid (list_ c))
             ∧ m c' = delete (Key (Value e)) (m c)
             ∧ sizeUsed c' = sub64 (sizeUsed c) (Size (Value e))
             ∧ capUsed c' = sub64 (capUsed c) 1
             ∧ files fs' = delete (Path (Value e)) (files fs)
             ∧ (dir c', size c', cap c', useDeflate c')
               = (dir c, size c, cap c, useDeflate c)
       | (fs', Some err) =>
           evictLast (c, fs) = ((c, fs), Some err) ∧ fs' = fs
       end).
Proof.
  intros Hnd. destruct c as [d sz cp su cu [its nid] mp defl]; simpl in *.
  split.
  - intros ->. reflexivity.
  - intros l e ->. unfold evictLast.
    cbn [list_ m sizeUsed capUsed dir size cap useDeflate].
    rewrite Back_snoc, Remove_back by done.
    unfold os_Remove.
    destruct (files fs !! Path (Value e)) as [b|] eqn:Hf; [|done].
    destruct (decide (Path (Value e) ∈ pinned fs)); [done|].
    eexists. split; [reflexivity|]. done.
Qed.

(** C7. For every cache state (with a well-formed list), [evictLast] on an
    empty ordering is a no-op that returns success; otherwise it tries to
    delete the file of the oldest entry: when the deletion succeeds exactly
    that entry leaves the ordering and the map, its file is gone, and both
    counters are decremented (by the entry's size and by one); when the
    deletion fails the error is returned and the cache and the files are
    unchanged. *)
Theorem evictLast_spec (c : Cache) (fs : FS) :
  NoDup (eid <$> items (list_ c)) →
  (items (list_ c) = [] → evictLast (c, fs) = ((c, fs), None))
  ∧ (∀ l e, items (list_ c) = l ++ [e] →
       match os_Remove (Path (Value e)) fs with
       | (fs', None) =>
           ∃ c', evictLast (c, fs) = ((c', fs'), None)
             ∧ list_ c' = mkList l (nextid (list_ c))
             ∧ m c' = delete (Key (Value e)) (m c)
             ∧ sizeUsed c' = sub64 (sizeUsed c) (Size (Value e))
             ∧ capUsed c' = sub64 (capUsed c) 1
             ∧ files fs' = delete (Path (Value e)) (files fs)
             ∧ (dir c', size c', cap c', useDeflate c')
               = (dir c, size c, cap c, useDeflate c)
       | (fs', Some err) =>
           evictLast (c, fs) = ((c, fs), Some err) ∧ fs' = fs
       end).
Proof. exact (evictLast_cases c fs). Qed.

Lemma evictLast_spec_witness :
  NoDup (eid <$> items (list_ cache_ab))
  ∧ (∃ c' fs', evictLast (cache_ab, fs_ab) = ((c', fs'), None)
           ∧ items (list_ c') = [elem_b]
           ∧ sizeUsed c' = 2 ∧ capUsed c' = 1
           ∧ files fs' !! "/tmp/stash/a"%string = None)
  ∧ evictLast (cache_ab, fs_ab_pinned)
    = ((cache_ab, fs_ab_pinned), Some (PathError EPERM)).
Proof.
  assert (Hnd : NoDup (eid <$> items (list_ cache_ab))).
  { apply (bool_decide_unpack _). vm_compute. exact I. }
  split; [exact Hnd|]. split.
  - destruct (evictLast_spec cache_ab fs_ab Hnd) as [_ H].
    specialize (H [elem_b] elem_a eq_refl).
    destruct (os_Remove (Path (Value elem_a)) fs_ab) as [fs' [err|]] eqn:Hrm.
    { vm_compute in Hrm. discriminate Hrm. }
    destruct H as (c' & Hev & Hl & _ & Hs & Hc & Hf & _).
    exists c', fs'. rewrite Hf, Hl.
    repeat split; assumption || apply lookup_delete_eq.
  - destruct (evictLast_spec cache_ab fs_ab_pinned Hnd) as [_ H].
    specialize (H [elem_b] elem_a eq_refl).
    exact (proj1 H).
Defined.

Lemma os_Remove_absent (path : string) (fs : FS) :
  files fs !! path = None → os_Remove path fs = (fs, Some (PathError ENOENT)).
Proof. intros Hf. unfold os_Remove. by rewrite Hf. Qed.

Lemma os_Remove_error (path : string) (fs fs' : FS) (err : error) :
  os_Remove path fs = (fs', Some err) → fs' = fs.
Proof.
  unfold os_Remove. destruct (files fs !! path); [|congruence].
  destruct (decide (path ∈ pinned fs)); congruence.
Qed.

(** C8, as stated, fails: with [a] the oldest entry and its file already
    deleted from the directory, [evictLast] does not drop the entry. *)
Lemma evict_absent_not_tolerated : ¬ evict_tolerates_absent cache_ab fs_b_only.
Proof.
  intros H. destruct (H [elem_b] elem_a eq_refl eq_refl) as (c' & fs' & Hev & _).
  vm_compute in Hev. discriminate Hev.
Qed.

(** C8, amended. During eviction every failure of the file deletion is
    returned as the error of [evictLast], the case of a file that is
    already absent included ([os.Remove] reports it as [ENOENT]); in each
    such case the entry stays in the ordering and the map and both counters
    keep their values. *)
Theorem evictLast_reports_every_failure (c : Cache) (fs : FS)
    (l : list Element) (e : Element) :
  items (list_ c) = l ++ [e] →
  (files fs !! Path (Value e) = None →
     evictLast (c, fs) = ((c, fs), Some (PathError ENOENT)))
  ∧ (∀ fs' err, os_Remove (Path (Value e)) fs = (fs', Some err) →
     evictLast (c, fs) = ((c, fs), Some err)).
Proof.
  intros Hl.
  assert (Hback : Back (list_ c) = Some e).
  { unfold Back. rewrite Hl. apply last_snoc. }
  split.
  - intros Hf. unfold evictLast. rewrite Hback.
    by rewrite (os_Remove_absent _ _ Hf).
  - intros fs' err Hrm. unfold evictLast. rewrite Hback, Hrm.
    by rewrite (os_Remove_error _ _ _ _ Hrm).
Qed.

Lemma evictLast_reports_every_failure_witness :
  items (list_ cache_ab) = [elem_b] ++ [elem_a]
  ∧ files fs_b_only !! Path (Value elem_a) = None
  ∧ evictLast (cache_ab, fs_b_only)
    = ((cache_ab, fs_b_only), Some (PathError ENOENT)).
Proof.
  split; [reflexivity|]. split; [reflexivity|].
  apply (evictLast_reports_every_failure cache_ab fs_b_only [elem_b] elem_a);
    reflexivity.
Defined.

(** ** Rejection of a blob that is too large *)

Lemma os_Remove_gone (path : string) (fs : FS) :
  path ∉ pinned fs → files (os_Remove path fs).1 !! path = None.
Proof.
  intros Hp. unfold os_Remove.
  destruct (files fs !! path) eqn:Hf; [|done].
  rewrite decide_False by done. simpl. apply lookup_delete_eq.
Qed.

Lemma os_Remove_pinned (path : string) (fs : FS) :
  pinned (os_Remove path fs).1 = pinned fs.
Proof.
  unfold os_Remove. destruct (files fs !! path); [|done].
  by destruct (decide (path ∈ pinned fs)).
Qed.

Lemma os_Create_pinned (path : string) (fs : FS) :
  pinned (os_Create path fs).1 = pinned fs.
Proof. unfold os_Create. by destruct (decide (path ∈ denied fs)). Qed.

Lemma os_Rename_pinned (src dst : string) (fs : FS) :
  pinned (os_Rename src dst fs).1 = pinned fs.
Proof.
  unfold os_Rename. destruct (files fs !! src); [|done].
  destruct (decide (dst ∈ denied fs)); [done|].
  by destruct (decide (src ∈ pinned fs)).
Qed.

Lemma writeFile_pinned `{Codec} d key r deflate fs :
  pinned (writeFile d key r deflate fs).1 = pinned fs.
Proof.
  unfold writeFile. pose proof (os_Create_pinned (Join d key) fs) as Hc.
  destruct (os_Create (Join d key) fs) as [fs1 [e|]]; simpl in *; [done|].
  unfold io_Copy. by destruct (r_err r).
Qed.

Lemma storeFile_pinned `{Codec} c key srcpath fs :
  pinned (storeFile c key srcpath fs).1.1 = pinned fs.
Proof.
  unfold storeFile. destruct (filesize srcpath fs); [|done].
  destruct (useDeflate c).
  - pose proof (os_Create_pinned (Join (dir c) (escape key)) fs) as Hc.
    destruct (os_Create _ fs) as [fs1 [e|]]; simpl in *; [done|].
    destruct (os_Open srcpath fs1); [|done].
    unfold io_Copy; simpl. by rewrite os_Remove_pinned.
  - pose proof (os_Rename_pinned srcpath (Join (dir c) (escape key)) fs) as Hr.
    by destruct (os_Rename _ _ fs).
Qed.

Lemma validate_too_large (fuel : nat) (path : string) (n : Z) (c : Cache) (fs : FS) :
  size c < n →
  validate fuel path n (c, fs)
  = Some ((c, (os_Remove path fs).1), Some (FileError (dir c) "" ErrTooLarge)).
Proof. intros Hn. unfold validate. by rewrite (proj2 (Z.ltb_lt _ _) Hn). Qed.

(** C6, as stated, fails: the directory holds [a]'s file protected
    against unlinking; a twelve-byte [Put] under a ten-byte budget is
    written, rejected as too large, and its file is still there. *)
Lemma too_large_file_may_stay :
  ¬ @too_large_removes_file StoredFrame "a"
      (bytes_NewReader (B "0123456789ab")) (cache_ab, fs_ab_pinned).
Proof.
  intros Hclaim. unfold too_large_removes_file in Hclaim.
  destruct (@writeFile StoredFrame (dir cache_ab) (escape "a")
              (bytes_NewReader (B "0123456789ab")) (useDeflate cache_ab) fs_ab_pinned)
    as [fs1 [[p n] e]] eqn:Hw.
  vm_compute in Hw. injection Hw as <- <- <- <-.
  destruct (Hclaim _ 12 eq_refl eq_refl 0%nat) as (fs' & Hput & Hgone).
  vm_compute in Hput. injection Hput as <-.
  vm_compute in Hgone. discriminate Hgone.
Qed.

(** C6, amended. For every [PutReader], [Put] and [PutFile] whose written
    size [n] exceeds [size], the operation calls [os.Remove] on the file it
    has just written and ignores a failure of that call (so the file is
    gone whenever it can be unlinked), returns the too-large error, and
    leaves the map, the recency ordering and both counters exactly as they
    were before the call. *)
Theorem too_large_is_rejected `{Codec} (fuel : nat) (key : string) (c : Cache) (fs : FS) :
  let path := Join (dir c) (escape key) in
  let rejected (fs1 : FS) (out : option (World * option error)) :=
    out = Some ((c, (os_Remove path fs1).1), Some (FileError (dir c) "" ErrTooLarge))
    ∧ (path ∉ pinned fs → files (os_Remove path fs1).1 !! path = None) in
  (∀ r fs1 n,
     writeFile (dir c) (escape key) r (useDeflate c) fs = (fs1, (path, n, None)) →
     size c < n → rejected fs1 (PutReader fuel key r (c, fs)))
  ∧ (∀ val fs1 n,
     writeFile (dir c) (escape key) (bytes_NewReader val) (useDeflate c) fs
       = (fs1, (path, n, None)) →
     size c < n → rejected fs1 (Put fuel key val (c, fs)))
  ∧ (∀ srcpath fs1 n,
     storeFile c key srcpath fs = (fs1, n, None) →
     size c < n → rejected fs1 (PutFile fuel key srcpath (c, fs))).
Proof.
  intros path rejected.
  assert (Hreader : ∀ r fs1 n,
     writeFile (dir c) (escape key) r (useDeflate c) fs = (fs1, (path, n, None)) →
     size c < n → rejected fs1 (PutReader fuel key r (c, fs))).
  { intros r fs1 n Hw Hn. split.
    - unfold PutReader. rewrite Hw. by rewrite validate_too_large.
    - intros Hp. apply os_Remove_gone.
      pose proof (writeFile_pinned (dir c) (escape key) r (useDeflate c) fs) as Hpin.
      rewrite Hw in Hpin. simpl in Hpin. by rewrite Hpin. }
  split; [exact Hreader|]. split.
  - intros val. apply Hreader.
  - intros srcpath fs1 n Hs Hn. split.
    + unfold PutFile. rewrite Hs. fold path. by rewrite validate_too_large.
    + intros Hp. apply os_Remove_gone.
      pose proof (storeFile_pinned c key srcpath fs) as Hpin.
      rewrite Hs in Hpin. simpl in Hpin. by rewrite Hpin.
Qed.

Lemma too_large_is_rejected_witness :
  size cache_ab < 12
  ∧ ∃ fs', @Put StoredFrame 0 "c" (B "0123456789ab") (cache_ab, fs_ab)
           = Some ((cache_ab, fs'), Some (FileError "/tmp/stash" "" ErrTooLarge))
         ∧ files fs' !! "/tmp/stash/c"%string = None.
Proof.
  split; [reflexivity|].
  destruct (@too_large_is_rejected StoredFrame 0 "c" cache_ab fs_ab) as (_ & Hput & _).
  destruct (@writeFile StoredFrame (dir cache_ab) (escape "c")
              (bytes_NewReader (B "0123456789ab")) (useDeflate cache_ab) fs_ab)
    as [fs1 [[p n] e]] eqn:Hw.
  assert (Hp : p = Join (dir cache_ab) (escape "c") ∧ n = 12 ∧ e = None).
  { vm_compute in Hw. injection Hw as _ <- <- <-. by vm_compute. }
  destruct Hp as (-> & -> & ->).
  destruct (Hput (B "0123456789ab") fs1 12 Hw eq_refl) as [Hout Hgone].
  exists (os_Remove (Join (dir cache_ab) (escape "c")) fs1).1.
  split; [exact Hout|]. apply Hgone. vm_compute. intros Hin. discriminate Hin.
Defined.

(** ** Replacing an existing key *)

Example cache_aa_reached :
  (w ← fresh 10 40 false;
   @puts_ok StoredFrame 10 [("a", "abcdefgh"); ("a", "ij")]%string w)
  = Some (cache_aa, fs_aa).
Proof. vm_compute. reflexivity. Qed.

(** C1, at the failing input.  [New(dir, 10, 40, false)], then
    [Put("a", "abcdefgh")] and [Put("a", "ij")] both return [nil]; the
    cache then holds the single two-byte entry [a], while [sizeUsed] is 10
    and [capUsed] is 2: [addMeta] adds the new entry to both counters and
    unlinks the replaced element without taking its share back. *)
Theorem replace_leaves_counters_inconsistent :
  ∃ c fs,
    (w ← fresh 10 40 false;
     @puts_ok StoredFrame 10 [("a", "abcdefgh"); ("a", "ij")]%string w) = Some (c, fs)
    ∧ recency c = ["a"%string]
    ∧ entry_sizes c = [2]
    ∧ sizeUsed c = 10
    ∧ capUsed c = 2
    ∧ ¬ counters_consistent c.
Proof.
  exists cache_aa, fs_aa. split; [exact cache_aa_reached|].
  repeat split; try reflexivity.
  intros [Hs _]. vm_compute in Hs. discriminate Hs.
Qed.

(** C2, at the failing input.  In a cache of 100 bytes and 10 entries
    holding [b] and [a] (2 and 8 bytes, [a] the older), [Put("a", "xyz")]
    returns [nil] without evicting anything and moves [a] to the front, but
    [capUsed] goes from 2 to 3 and [sizeUsed] from 10 to 13; the claim asks
    for 2 and for 10 + (3 - 8) = 5. *)
Theorem reput_overcounts :
  ∃ c1 fs1 c2 fs2,
    (w ← fresh 100 10 false;
     @puts_ok StoredFrame 10 [("a", "abcdefgh"); ("b", "ij")]%string w) = Some (c1, fs1)
    ∧ @Put StoredFrame 10 "a" (B "xyz") (c1, fs1) = Some ((c2, fs2), None)
    ∧ recency c1 = ["b"; "a"]%string ∧ recency c2 = ["a"; "b"]%string
    ∧ entry_sizes c1 = [2; 8] ∧ entry_sizes c2 = [3; 2]
    ∧ capUsed c1 = 2 ∧ capUsed c2 = 3
    ∧ sizeUsed c1 = 10 ∧ sizeUsed c2 = 13.
Proof.
  eexists _, _, _, _.
  split; [vm_compute; reflexivity|].
  split; [vm_compute; reflexivity|].
  vm_compute. repeat split; reflexivity.
Qed.

(** ** The eviction loop *)

Lemma evictLoop_step (fuel : nat) (n : Z) (w w' : World) :
  size w.1 < add64 n (sizeUsed w.1) →
  evictLast w = (w', None) →
  evictLoop (S fuel) n w = evictLoop fuel n w'.
Proof.
  intros Hc Hev. simpl. rewrite (proj2 (Z.ltb_lt _ _) Hc). by rewrite Hev.
Qed.

(** With nothing left to evict and the budget still exceeded, the loop
    never exits. *)
Lemma evictLoop_stuck (fuel : nat) (n : Z) (c : Cache) (fs : FS) :
  items (list_ c) = [] →
  size c < add64 n (sizeUsed c) →
  evictLoop fuel n (c, fs) = None.
Proof.
  intros Hl Hc. induction fuel as [|fuel IH].
  - simpl. by rewrite (proj2 (Z.ltb_lt _ _) Hc).
  - rewrite (evictLoop_step fuel n (c, fs) (c, fs)); [exact IH|exact Hc|].
    unfold evictLast, Back. by rewrite Hl.
Qed.

Lemma evictLoop_diverges_after (n : Z) (w w' : World) :
  size w.1 < add64 n (sizeUsed w.1) →
  evictLast w = (w', None) →
  (∀ fuel, evictLoop fuel n w' = None) →
  ∀ fuel, evictLoop fuel n w = None.
Proof.
  intros Hc Hev Hdiv [|fuel].
  - simpl. by rewrite (proj2 (Z.ltb_lt _ _) Hc).
  - by rewrite (evictLoop_step fuel n w w').
Qed.

Lemma PutReader_diverges `{Codec} (key : string) (r : Reader) (c : Cache)
    (fs fs1 : FS) (path : string) (n : Z) :
  writeFile (dir c) (escape key) r (useDeflate c) fs = (fs1, (path, n, None)) →
  n <= size c →
  (∀ fuel, evictLoop fuel n (c, fs1) = None) →
  ∀ fuel, PutReader fuel key r (c, fs) = None.
Proof.
  intros Hw Hn Hdiv fuel. unfold PutReader. rewrite Hw. unfold validate.
  rewrite (proj2 (Z.ltb_ge _ _) Hn). by rewrite Hdiv.
Qed.

(** C10, at the failing input.  [New(dir, 10, 40, false)],
    [Put("a", "abcdefgh")], [Put("a", "ij")] leave one two-byte entry and
    [sizeUsed] = 10.  [Put("b", "klm")] then enters the loop of [validate]:
    the first pass evicts [a] ([sizeUsed] = 8), and from then on
    3 + 8 > 10 holds with an empty list, where [evictLast] returns [nil]
    without changing anything.  No number of iterations ends the call. *)
Theorem put_never_returns :
  (w ← fresh 10 40 false;
   @puts_ok StoredFrame 10 [("a", "abcdefgh"); ("a", "ij")]%string w)
  = Some (cache_aa, fs_aa)
  ∧ ∀ fuel, @Put StoredFrame fuel "b" (B "klm") (cache_aa, fs_aa) = None.
Proof.
  split; [exact cache_aa_reached|].
  destruct (@writeFile StoredFrame (dir cache_aa) (escape "b")
              (bytes_NewReader (B "klm")) (useDeflate cache_aa) fs_aa)
    as [fs1 [[p n] e]] eqn:Hw.
  assert (Hpn : n = 3 ∧ e = None).
  { vm_compute in Hw. by injection Hw as _ _ <- <-. }
  destruct Hpn as [-> ->].
  apply (PutReader_diverges _ _ _ _ _ _ _ Hw); [by vm_compute|].
  assert (Hfs1 : files fs1 !! "/tmp/stash/a"%string = Some (B "ij")
                 ∧ pinned fs1 = ∅).
  { vm_compute in Hw. by injection Hw as <- _. }
  destruct Hfs1 as [Hfa Hpin].
  destruct (evictLast (cache_aa, fs1)) as [[c' fs'] err] eqn:Hev.
  assert (Hc' : err = None ∧ items (list_ c') = [] ∧ sizeUsed c' = 8 ∧ size c' = 10).
  { unfold evictLast, os_Remove in Hev. cbn in Hev. rewrite Hfa, Hpin in Hev.
    rewrite decide_False in Hev by set_solver.
    injection Hev as <- _ <-. by vm_compute. }
  destruct Hc' as (-> & Hl & Hsu & Hsz).
  assert (Hover : size (cache_aa, fs1).1 < add64 3 (sizeUsed (cache_aa, fs1).1))
    by reflexivity.
  apply (evictLoop_diverges_after 3 (cache_aa, fs1) (c', fs') Hover Hev).
  intros fuel. apply evictLoop_stuck; [exact Hl|].
  rewrite Hsu, Hsz. by vm_compute.
Qed.

(** ** The size recorded for a compressed blob *)

(** Through the deflate writer, [writeFile] stores the compressed stream
    and returns the number of input bytes. *)
Lemma writeFile_deflate_count `{Codec} (d key : string) (r : Reader) (fs : FS) :
  Join d key ∉ denied fs →
  r_err r = None →
  ∃ fs', writeFile d key r true fs = (fs', (Join d key, len64 (r_data r), None))
       ∧ files fs' !! Join d key = Some (compress (r_data r)).
Proof.
  intros Hd Hr. unfold writeFile, os_Create, io_Copy.
  rewrite decide_False by done. rewrite Hr.
  eexists. split; [reflexivity|]. simpl. apply lookup_insert_eq.
Qed.

(** C4, at the failing input.  With compression on,
    [Put("key", "value")] returns [nil]; the file on disk then holds the
    nine bytes of the compressed stream, while the entry's size and
    [sizeUsed] are 5, the length of the input. *)
Theorem deflate_put_records_input_size :
  ∃ c fs e,
    (w ← fresh 2048000 40 true;
     @puts_ok StoredFrame 10 [("key", "value")]%string w) = Some (c, fs)
    ∧ m c !! "key"%string = Some e
    ∧ os_Stat (Path (Value e)) fs = Ok 9
    ∧ Size (Value e) = 5
    ∧ sizeUsed c = 5.
Proof.
  eexists _, _, _.
  split; [vm_compute; reflexivity|].
  split; [vm_compute; reflexivity|].
  vm_compute. repeat split; reflexivity.
Qed.

(** C3, at the failing input.  With compression on and a budget of
    5 bytes, [Put("key", "value")] returns [nil] although the blob is
    stored in nine bytes: it is admitted because [validate] is given the
    length of the input.  In the same way, in a budget of 30 bytes five
    blobs of nine stored bytes each are all admitted and all kept:
    45 bytes are on disk while [sizeUsed] is 25. *)
Theorem deflate_admits_blob_over_budget :
  (∃ c fs,
     (w ← fresh 5 40 true;
      @puts_ok StoredFrame 10 [("key", "value")]%string w) = Some (c, fs)
     ∧ size c = 5
     ∧ recency c = ["key"%string]
     ∧ os_Stat "/tmp/stash/key" fs = Ok 9
     ∧ sizeUsed c = 5)
  ∧ (∃ c fs,
       (w ← fresh 30 40 true;
        @puts_ok StoredFrame 10
          [("a", "value"); ("b", "value"); ("c", "value"); ("d", "value");
           ("e", "value")]%string w)
       = Some (c, fs)
       ∧ size c = 30
       ∧ recency c = ["e"; "d"; "c"; "b"; "a"]%string
       ∧ (λ name, os_Stat (Join "/tmp/stash" name) fs) <$> recency c
         = [Ok 9; Ok 9; Ok 9; Ok 9; Ok 9]
       ∧ sizeUsed c = 25).
Proof.
  split.
  - eexists _, _. split; [vm_compute; reflexivity|].
    vm_compute. repeat split; reflexivity.
  - eexists _, _. split; [vm_compute; reflexivity|].
    vm_compute. repeat split; reflexivity.
Qed.

(** ** [Put] followed by [Get] *)

(** C5, at the failing input.  In a cache of one entry, [Put("a", "x")]
    and [Put("a", "y")] both return [nil]: the second call writes the new
    file, then [validate] evicts the old entry of [a], whose path is the
    file just written, and [addMeta] indexes a file that no longer exists.
    The following [Get("a")] fails. *)
Theorem put_then_get_fails :
  ∃ w,
    (w0 ← fresh 2048 1 false;
     @puts_ok StoredFrame 10 [("a", "x"); ("a", "y")]%string w0) = Some w
    ∧ recency w.1 = ["a"%string]
    ∧ files w.2 !! "/tmp/stash/a"%string = None
    ∧ (Get "a" w).2 = Err (PathError ENOENT).
Proof.
  eexists.
  split; [vm_compute; reflexivity|].
  vm_compute. repeat split; reflexivity.
Qed.

(** ** Budgets *)

Lemma sumZ_cons (x : Z) (l : list Z) : sumZ (x :: l) = x + sumZ l.
Proof. reflexivity. Qed.

Lemma sumZ_app (l1 l2 : list Z) : sumZ (l1 ++ l2) = sumZ l1 + sumZ l2.
Proof.
  induction l1 as [|x l1 IH]; [done|].
  rewrite <- app_comm_cons, !sumZ_cons, IH. lia.
Qed.

Lemma sumZ_nonneg (l : list Z) : Forall (λ s, 0 <= s) l → 0 <= sumZ l.
Proof.
  induction 1 as [|x l Hx _ IH]; [done|]. rewrite sumZ_cons. lia.
Qed.

Lemma sum_filter_le (P : Element → Prop) `{∀ x, Decision (P x)} (l : list Element) :
  Forall (λ s, 0 <= s) ((λ e, Size (Value e)) <$> l) →
  sumZ ((λ e, Size (Value e)) <$> filter P l) <= sumZ ((λ e, Size (Value e)) <$> l).
Proof.
  induction l as [|x l IH]; [done|].
  rewrite fmap_cons, Forall_cons. intros [Hx Hl]. specialize (IH Hl).
  rewrite filter_cons. destruct (decide (P x));
    rewrite ?fmap_cons, ?sumZ_cons; lia.
Qed.

Lemma wf_list_Remove (e : Element) (l : List) : wf_list l → wf_list (Remove e l).
Proof.
  intros [Hnd Hlt]. split; simpl.
  - apply (NoDup_fmap_2_strong eid); [|by apply NoDup_filter, (NoDup_fmap_1 eid)].
    intros x y Hx%list_elem_of_filter Hy%list_elem_of_filter Heq.
    destruct Hx as [_ Hx], Hy as [_ Hy].
    apply list_elem_of_lookup in Hx as [i Hi], Hy as [j Hj].
    assert (i = j) as ->; [|congruence].
    apply (NoDup_lookup _ i j (eid x) Hnd); rewrite list_lookup_fmap.
    + by rewrite Hi.
    + rewrite Hj. simpl. by rewrite Heq.
  - apply Forall_forall. intros x [_ Hx]%list_elem_of_filter.
    by apply (proj1 (Forall_forall _ _) Hlt).
Qed.

Lemma wf_list_PushFront (v : Meta) (l : List) : wf_list l → wf_list (PushFront v l).2.
Proof.
  intros [Hnd Hlt]. split; simpl.
  - apply NoDup_cons. split; [|done].
    intros Hin%list_elem_of_fmap. destruct Hin as (x & Heq & Hx).
    pose proof (proj1 (Forall_forall _ _) Hlt x Hx). simpl in *. lia.
  - apply Forall_cons. split; [simpl; lia|].
    eapply Forall_impl; [exact Hlt|]. simpl. intros; lia.
Qed.

Lemma budget_inv_New (d : string) (sz cp : Z) (deflate : bool) (c : Cache) :
  2 * sz <= max_int64 → cp < max_int64 →
  New d sz cp deflate = Ok c →
  budget_inv c ∧ size c = sz ∧ cap c = cp.
Proof.
  intros Hsz Hcp. unfold New.
  destruct (negb (validDir d)); [done|].
  destruct (sz <=? 0) eqn:H1; [done|]. destruct (cp <=? 0) eqn:H2; [done|].
  intros [= <-]. apply Z.leb_gt in H1, H2.
  unfold budget_inv, no_overflow, wf_list, entry_sizes, sumZ; simpl.
  repeat split; try lia; try constructor.
Qed.

(** [evictLast] keeps the invariant, never raises [sizeUsed], and takes one
    off [capUsed] whenever it returns [nil] on a non-empty list. *)
Lemma evictLast_inv (c c' : Cache) (fs fs' : FS) (err : option error) :
  budget_inv c →
  evictLast (c, fs) = ((c', fs'), err) →
  budget_inv c' ∧ same_config c c' ∧ sizeUsed c' <= sizeUsed c
  ∧ (items (list_ c) ≠ [] → err = None → capUsed c' = capUsed c - 1).
Proof.
  intros Hinv Hev.
  pose proof Hinv as (Hno & Hwf & Hnn & Hsum & Hcap & Hdrift).
  destruct (items (list_ c)) as [|e0 l0] eqn:Hits using rev_ind.
  - unfold evictLast, Back in Hev. rewrite Hits in Hev. simpl in Hev.
    injection Hev as <- <- <-. unfold same_config.
    split; [exact Hinv|]. repeat split; done || lia.
  - clear IHl0. rename e0 into e, l0 into l.
    destruct (evictLast_cases c fs (proj1 Hwf)) as [_ Hcases].
    specialize (Hcases l e Hits).
    destruct (os_Remove (Path (Value e)) fs) as [fs1 [e1|]].
    + destruct Hcases as [Hcases _]. rewrite Hcases in Hev.
      injection Hev as <- <- <-. unfold same_config.
      split; [exact Hinv|]. repeat split; done || lia.
    + destruct Hcases as (c1 & Hc1 & Hl1 & _ & Hsu & Hcu & _ & Hcfg).
      rewrite Hc1 in Hev. injection Hev as <- <- <-.
      injection Hcfg as Hd Hs Hc Hu.
      unfold entry_sizes in *. rewrite Hits in *. rewrite fmap_app in *.
      apply Forall_app in Hnn as [Hnnl Hnne].
      rewrite fmap_cons in Hnne. apply Forall_cons_1 in Hnne as [Hnne _].
      rewrite sumZ_app in Hsum. rewrite fmap_cons, sumZ_cons in Hsum.
      change (sumZ ((λ e, Size (Value e)) <$> [])) with 0 in Hsum.
      rewrite length_app in *. simpl in Hcap, Hdrift.
      pose proof (sumZ_nonneg _ Hnnl) as Hpos.
      destruct Hno as (Hn1 & Hn2 & Hn3 & Hn4). unfold max_int64 in *.
      assert (Hsu' : sizeUsed c1 = sizeUsed c - Size (Value e)).
      { rewrite Hsu. apply wrap64_id. unfold in_int64, min_int64, max_int64. lia. }
      assert (Hcu' : capUsed c1 = capUsed c - 1).
      { rewrite Hcu. apply wrap64_id. unfold in_int64, min_int64, max_int64. lia. }
      destruct Hwf as [Hnd Hlt].
      assert (Hwf1 : wf_list (list_ c1)).
      { rewrite Hl1. split; simpl.
        - rewrite Hits, fmap_app in Hnd. by apply NoDup_app in Hnd as (? & _).
        - rewrite Hits in Hlt. by apply Forall_app in Hlt as [? _]. }
      split; [|split; [done|split; [lia|intros _ _; exact Hcu']]].
      unfold budget_inv.
      split; [unfold no_overflow, max_int64; rewrite Hs, Hc; lia|].
      split; [exact Hwf1|].
      unfold entry_sizes. rewrite Hl1, Hs, Hc, Hsu', Hcu'. simpl.
      repeat split; done || lia.
Qed.

Lemma same_config_refl (c : Cache) : same_config c c.
Proof. by unfold same_config. Qed.

Lemma same_config_trans (c1 c2 c3 : Cache) :
  same_config c1 c2 → same_config c2 c3 → same_config c1 c3.
Proof. unfold same_config. intros (-> & -> & -> & ->) (-> & -> & -> & ->). done. Qed.

Lemma add64_small (a b : Z) : in_int64 (a + b) → add64 a b = a + b.
Proof. apply wrap64_id. Qed.

Lemma evictLoop_unfold (fuel : nat) (n : Z) (w : World) :
  evictLoop fuel n w =
  if size w.1 <? add64 n (sizeUsed w.1) then
    match fuel with
    | O => None
    | S fuel' =>
        match evictLast w with
        | (w', Some e) => Some (w', Some e)
        | (w', None) => evictLoop fuel' n w'
        end
    end
  else Some (w, None).
Proof. by destruct fuel. Qed.

(** The loop of [validate] keeps the invariant and, when it exits without
    error, has made room for [n] more bytes. *)
Lemma evictLoop_inv (fuel : nat) (n : Z) (c c' : Cache) (fs fs' : FS)
    (err : option error) :
  budget_inv c → 0 <= n <= size c →
  evictLoop fuel n (c, fs) = Some ((c', fs'), err) →
  budget_inv c' ∧ same_config c c' ∧ (err = None → n + sizeUsed c' <= size c').
Proof.
  revert c fs. induction fuel as [|fuel IH]; intros c fs Hinv Hn Hloop;
    rewrite evictLoop_unfold in Hloop; cbn [fst] in Hloop.
  all: pose proof Hinv as ((Hn1 & Hn2 & _) & _ & Hnn & Hsum & _).
  all: pose proof (sumZ_nonneg _ Hnn) as Hpos.
  all: assert (Hadd : add64 n (sizeUsed c) = n + sizeUsed c)
         by (apply add64_small; unfold in_int64, min_int64, max_int64 in *; lia).
  all: rewrite Hadd in Hloop.
  all: destruct (size c <? n + sizeUsed c) eqn:Hcond.
  - discriminate Hloop.
  - injection Hloop as <- <- <-. apply Z.ltb_ge in Hcond.
    split; [done|]. split; [apply same_config_refl|done].
  - destruct (evictLast (c, fs)) as [[c1 fs1] [e|]] eqn:Hev.
    + injection Hloop as <- <- <-.
      destruct (evictLast_inv _ _ _ _ _ Hinv Hev) as (Hinv1 & Hcfg & _).
      split; [done|]. split; [done|]. discriminate.
    + destruct (evictLast_inv _ _ _ _ _ Hinv Hev) as (Hinv1 & Hcfg & _).
      pose proof Hcfg as (_ & Hs & _).
      assert (Hn1' : 0 <= n <= size c1) by lia.
      destruct (IH c1 fs1 Hinv1 Hn1' Hloop) as (Hinv' & Hcfg' & Hroom).
      split; [done|]. split; [|done]. by eapply same_config_trans.
  - injection Hloop as <- <- <-. apply Z.ltb_ge in Hcond.
    split; [done|]. split; [apply same_config_refl|done].
Qed.

(** [validate] keeps the invariant; when it returns [nil] there is room
    for [n] more bytes and for one more entry. *)
Lemma validate_inv (fuel : nat) (path : string) (n : Z) (c c' : Cache)
    (fs fs' : FS) (err : option error) :
  budget_inv c → 0 <= n →
  validate fuel path n (c, fs) = Some ((c', fs'), err) →
  budget_inv c' ∧ same_config c c'
  ∧ (err = None → n + sizeUsed c' <= size c' ∧ capUsed c' + 1 <= cap c').
Proof.
  intros Hinv Hn Hval. unfold validate in Hval.
  destruct (size c <? n) eqn:Hbig.
  { injection Hval as <- <- <-. split; [done|].
    split; [apply same_config_refl|discriminate]. }
  apply Z.ltb_ge in Hbig.
  assert (Hn' : 0 <= n <= size c) by lia.
  destruct (evictLoop fuel n (c, fs)) as [[[c1 fs1] [e|]]|] eqn:Hloop;
    [| |discriminate Hval].
  { injection Hval as <- <- <-.
    destruct (evictLoop_inv _ _ _ _ _ _ _ Hinv Hn' Hloop) as (? & ? & _).
    split; [done|]. split; [done|discriminate]. }
  destruct (evictLoop_inv _ _ _ _ _ _ _ Hinv Hn' Hloop)
    as (Hinv1 & Hcfg1 & Hroom).
  specialize (Hroom eq_refl). cbn [fst] in Hval.
  pose proof Hinv1 as ((_ & _ & Hc1 & Hc2) & _ & _ & _ & Hcap & Hdrift).
  assert (Hadd : add64 (capUsed c1) 1 = capUsed c1 + 1)
    by (apply add64_small; unfold in_int64, min_int64, max_int64 in *; lia).
  rewrite Hadd in Hval.
  destruct (cap c1 <? capUsed c1 + 1) eqn:Hfull.
  - apply Z.ltb_lt in Hfull.
    destruct (evictLast (c1, fs1)) as [[c2 fs2] e2] eqn:Hev.
    injection Hval as <- <- <-.
    destruct (evictLast_inv _ _ _ _ _ Hinv1 Hev) as (Hinv2 & Hcfg2 & Hle & Hdec).
    split; [done|]. split; [by eapply same_config_trans|].
    intros ->. pose proof Hcfg2 as (_ & Hs & Hc & _).
    assert (Hne : items (list_ c1) ≠ []).
    { intros Hnil. rewrite Hnil in Hdrift, Hcap. simpl in *. lia. }
    specialize (Hdec Hne eq_refl). lia.
  - apply Z.ltb_ge in Hfull. injection Hval as <- <- <-.
    split; [done|]. split; [done|]. intros _. lia.
Qed.

(** [addMeta] after a successful [validate] keeps the invariant. *)
Lemma addMeta_inv (key path : string) (n : Z) (c : Cache) :
  budget_inv c → 0 <= n →
  n + sizeUsed c <= size c → capUsed c + 1 <= cap c →
  budget_inv (addMeta key path n c) ∧ same_config c (addMeta key path n c).
Proof.
  intros (Hno & Hwf & Hnn & Hsum & Hcap & Hdrift) Hn Hroom Hslot.
  pose proof (sumZ_nonneg _ Hnn) as Hpos.
  unfold addMeta.
  set (l1 := match m c !! key with
             | Some item => Remove item (list_ c)
             | None => list_ c
             end).
  assert (Hl1 : wf_list l1
                ∧ Forall (λ s, 0 <= s) ((λ e, Size (Value e)) <$> items l1)
                ∧ sumZ ((λ e, Size (Value e)) <$> items l1) <= sumZ (entry_sizes c)
                ∧ (length (items l1) <= length (items (list_ c)))%nat).
  { subst l1. destruct (m c !! key) as [item|]; [|done].
    split; [by apply wf_list_Remove|]. unfold entry_sizes in *. simpl.
    split; [|split].
    - rewrite Forall_fmap in Hnn |- *.
      apply Forall_forall. intros x [_ Hx]%list_elem_of_filter.
      exact (proj1 (Forall_forall _ _) Hnn x Hx).
    - by apply sum_filter_le.
    - apply length_filter. }
  destruct Hl1 as (Hwf1 & Hnn1 & Hsum1 & Hlen1).
  pose proof (wf_list_PushFront (mkMeta key n path) l1 Hwf1) as Hwf2.
  unfold PushFront in *. simpl in Hwf2.
  destruct Hno as (Hn1 & Hn2 & Hn3 & Hn4).
  assert (Hsu : add64 (sizeUsed c) n = sizeUsed c + n)
    by (apply add64_small; unfold in_int64, min_int64, max_int64 in *; lia).
  assert (Hcu : add64 (capUsed c) 1 = capUsed c + 1)
    by (apply add64_small; unfold in_int64, min_int64, max_int64 in *; lia).
  split; [|by unfold same_config].
  unfold budget_inv, no_overflow, entry_sizes in *.
  cbn [list_ items sizeUsed capUsed size cap].
  rewrite Hsu, Hcu, fmap_cons, sumZ_cons, length_cons. cbn [Size Value].
  split; [done|]. split; [done|].
  split; [by apply Forall_cons|].
  repeat split; lia.
Qed.

Lemma writeFile_count `{Codec} (d key : string) (r : Reader) (deflate : bool)
    (fs fs1 : FS) (path : string) (n : Z) :
  writeFile d key r deflate fs = (fs1, (path, n, None)) →
  path = Join d key ∧ n = len64 (r_data r).
Proof.
  unfold writeFile, io_Copy.
  destruct (os_Create (Join d key) fs) as [fs0 [e|]]; [discriminate|].
  destruct (r_err r); [discriminate|]. by intros [= <- <- <-].
Qed.

Lemma len64_small (b : bytes) :
  Z.of_nat (length b) <= max_int64 → len64 b = Z.of_nat (length b).
Proof.
  intros Hb. apply wrap64_id. unfold in_int64, min_int64, max_int64 in *. lia.
Qed.



Lemma writeFile_bytes `{Codec} (d key : string) (val : bytes) (deflate : bool) (fs : FS) :
  (Join d key ∈ denied fs
   ∧ writeFile d key (bytes_NewReader val) deflate fs
     = (fs, (""%string, 0, Some (FileError d key (PathError EACCES)))))
  ∨ (∃ fs1, writeFile d key (bytes_NewReader val) deflate fs
            = (fs1, (Join d key, len64 val, None))).
Proof.
  unfold writeFile, os_Create, io_Copy.
  destruct (decide (Join d key ∈ denied fs)) as [Hd|Hd]; [by left|].
  right. eexists. reflexivity.
Qed.




(** ** Escaped keys are file names *)

Lemma append_assoc (a b c : string) : (a +:+ b) +:+ c = a +:+ (b +:+ c).
Proof.
  induction a as [|x a IH]; [done|].
  change (String x ((a +:+ b) +:+ c) = String x (a +:+ (b +:+ c))).
  by rewrite IH.
Qed.

Lemma cut_prefix_app (p s : string) : cut_prefix p (p +:+ s) = Some s.
Proof.
  induction p as [|a p IH]; [done|].
  change (cut_prefix (String a p) (String a (p +:+ s)) = Some s).
  cbn [cut_prefix]. by rewrite Ascii.eqb_refl.
Qed.

Lemma escape_char_no_sep (a : ascii) :
  (shouldEscape a = false → Ascii.eqb a "/" = false)
  ∧ Ascii.eqb (upperhex (Nat.div (nat_of_ascii a) 16)) "/" = false
  ∧ Ascii.eqb (upperhex (Nat.modulo (nat_of_ascii a) 16)) "/" = false.
Proof.
  destruct a as [[] [] [] [] [] [] [] []]; vm_compute; repeat split; congruence.
Qed.

Lemma has_sep_escape (k : string) : has_sep (escape k) = false.
Proof.
  unfold escape. induction k as [|a k IH]; [done|].
  destruct (escape_char_no_sep a) as (Hkeep & Hhi & Hlo).
  cbn [QueryEscape]. destruct (shouldEscape a).
  - destruct (Nat.eqb (nat_of_ascii a) 32); cbn [has_sep].
    + by rewrite IH.
    + by rewrite Hhi, Hlo, IH.
  - cbn [has_sep]. by rewrite Hkeep, IH.
Qed.

Lemma escape_nonempty (k : string) : k ≠ ""%string → escape k ≠ ""%string.
Proof.
  destruct k as [|a k]; [done|]. intros _. unfold escape. cbn [QueryEscape].
  destruct (shouldEscape a); [destruct (Nat.eqb (nat_of_ascii a) 32)|]; discriminate.
Qed.

Lemma file_name_escape (k : string) : k ≠ ""%string → file_name (escape k) = true.
Proof.
  intros Hk. unfold file_name. rewrite has_sep_escape. simpl.
  destruct (String.eqb_spec (escape k) ""); [|done].
  by destruct (escape_nonempty k Hk).
Qed.

(** ** Warm-up *)

(** A file of the directory with a proper name is listed. *)
Lemma os_ReadDir_lists (d name : string) (b : bytes) (fs : FS) (infos : list FileInfo) :
  os_ReadDir d fs = Ok infos →
  files fs !! Join d name = Some b →
  file_name name = true →
  mkFileInfo name (len64 b) ∈ infos.
Proof.
  unfold os_ReadDir. destruct (decide (d ∈ denied fs)); [done|].
  intros [= <-] Hf Hname. apply list_elem_of_omap.
  exists (Join d name, b). split; [by apply elem_of_map_to_list|].
  unfold entry_of, Join. simpl.
  rewrite <- append_assoc, cut_prefix_app. by rewrite Hname.
Qed.

Lemma os_Open_file (path : string) (fs : FS) (b : bytes) :
  os_Open path fs = Ok b → files fs !! path = Some b.
Proof.
  unfold os_Open. destruct (decide (path ∈ denied fs)); [done|].
  destruct (files fs !! path); [|done]. by intros [= ->].
Qed.

Lemma addMeta_index (key path : string) (n : Z) (c : Cache) :
  dir (addMeta key path n c) = dir c
  ∧ useDeflate (addMeta key path n c) = useDeflate c
  ∧ ∃ e, m (addMeta key path n c) = <[key := e]> (m c) ∧ Path (Value e) = path.
Proof.
  unfold addMeta, PushFront. simpl. repeat split. eexists. by split.
Qed.

Lemma Warmup_fold (infos : list FileInfo) (c : Cache) :
  let c' := foldl (λ c file, addMeta (Name file) (Join (dir c) (Name file)) (FSize file) c)
                  c infos in
  dir c' = dir c ∧ useDeflate c' = useDeflate c
  ∧ (paths_by_key c → paths_by_key c')
  ∧ (∀ k, is_Some (m c !! k) ∨ k ∈ Name <$> infos → is_Some (m c' !! k)).
Proof.
  revert c. induction infos as [|file infos IH]; intros c; simpl.
  { repeat split; try done. intros k [Hk|Hk]; [done|]. by apply elem_of_nil in Hk. }
  destruct (addMeta_index (Name file) (Join (dir c) (Name file)) (FSize file) c)
    as (Hd & Hu & e & Hm & Hp).
  destruct (IH (addMeta (Name file) (Join (dir c) (Name file)) (FSize file) c))
    as (Hd' & Hu' & Hpaths & Hdom).
  split; [congruence|]. split; [congruence|]. split.
  - intros Hc. apply Hpaths. intros k e' Hk. rewrite Hm in Hk. rewrite Hd.
    destruct (decide (Name file = k)) as [<-|Hne].
    + rewrite lookup_insert_eq in Hk. by injection Hk as <-.
    + rewrite lookup_insert_ne in Hk by done. by apply Hc.
  - intros k Hk. apply Hdom. rewrite Hm.
    destruct (decide (Name file = k)) as [<-|Hne].
    + left. by rewrite lookup_insert_eq.
    + rewrite lookup_insert_ne by done.
      destruct Hk as [Hk|Hk]; [by left|right].
      apply elem_of_cons in Hk as [Hk|Hk]; [congruence|done].
Qed.

(** After [Warmup] of a fresh cache, every readable file of the directory
    whose name is an escaped key is served under that key. *)
Lemma Warmup_serves `{Codec} (d : string) (sz cp : Z) (deflate : bool)
    (c0 c1 : Cache) (fs fs1 : FS) (k : string) (v : bytes) :
  New d sz cp deflate = Ok c0 →
  Warmup (c0, fs) = ((c1, fs1), None) →
  k ≠ ""%string →
  os_Open (Join (dir c0) (escape k)) fs = Ok (encode deflate v) →
  serves (c1, fs1) k v.
Proof.
  intros Hnew Hwarm Hk Hopen.
  assert (Hc0 : m c0 = ∅ ∧ useDeflate c0 = deflate).
  { unfold New in Hnew. destruct (negb (validDir d)); [done|].
    destruct (sz <=? 0); [done|]. destruct (cp <=? 0); [done|].
    by injection Hnew as <-. }
  destruct Hc0 as [Hm0 Hu0].
  unfold Warmup in Hwarm.
  destruct (os_ReadDir (dir c0) fs) as [infos|e] eqn:Hdir; [|done].
  injection Hwarm as <- <-.
  destruct (Warmup_fold infos c0) as (Hd & Hu & Hpaths & Hdom).
  pose proof (os_ReadDir_lists _ _ _ _ _ Hdir (os_Open_file _ _ _ Hopen)
                (file_name_escape k Hk)) as Hin.
  destruct (Hdom (escape k)) as [e He].
  { right. apply list_elem_of_fmap. by eexists (mkFileInfo _ _). }
  exists e. split; [exact He|]. simpl.
  rewrite (Hpaths ltac:(by intros ? ?; rewrite Hm0, lookup_empty) _ _ He).
  by rewrite Hd, Hu, Hu0.
Qed.

(** ** Serving *)

Lemma Get_index (key : string) (w : World) :
  m (Get key w).1.1 = m w.1
  ∧ useDeflate (Get key w).1.1 = useDeflate w.1
  ∧ (Get key w).1.2 = w.2.
Proof.
  destruct w as [c fs]. unfold Get.
  destruct (m c !! escape key) as [item|]; [|done].
  by destruct (os_Open (Path (Value item)) fs).
Qed.

Lemma Get_serves `{Codec} (w : World) (key : string) (v : bytes) :
  serves w key v →
  ∃ s, (Get key w).2 = Ok s ∧ ReadAll s = Ok v.
Proof.
  destruct w as [c fs]. intros (e & He & Hopen). simpl in *.
  unfold Get. rewrite He, Hopen. simpl. unfold encode.
  destruct (useDeflate c); eexists; (split; [reflexivity|]); simpl; [|done].
  by rewrite decompress_compress.
Qed.

Lemma serves_after_Get `{Codec} (w : World) (key k : string) (v : bytes) :
  serves w k v → serves (Get key w).1 k v.
Proof.
  destruct (Get_index key w) as (Hm & Hu & Hfs).
  intros (e & He & Hopen). exists e. by rewrite Hm, Hu, Hfs.
Qed.

Lemma gets_serves `{Codec} (blobs : list (string * bytes)) (w : World) :
  Forall (λ kv, serves w kv.1 kv.2) blobs →
  (gets (blobs.*1) w).2 = (λ kv, Ok kv.2) <$> blobs.
Proof.
  revert w. induction blobs as [|[k v] blobs IH]; intros w Hall; [done|].
  apply Forall_cons in Hall as [Hkv Hall]. simpl in Hkv.
  destruct (Get_serves w k v Hkv) as (s & Hget & Hread).
  assert (Hrest : Forall (λ kv, serves (Get k w).1 kv.1 kv.2) blobs).
  { eapply Forall_impl; [exact Hall|]. intros kv. apply serves_after_Get. }
  specialize (IH _ Hrest).
  rewrite fmap_cons. cbn [gets fst].
  destruct (Get k w) as [w1 r]. simpl in Hget, IH. subst r.
  destruct (gets (blobs.*1) w1) as [w2 rs]. simpl in IH. subst rs.
  simpl. by rewrite Hread.
Qed.

(** C9. For every freshly constructed cache and every directory listing
    that [Warmup] reads successfully: take any files of the directory
    whose names are escaped non-empty keys and which open and hold a blob
    in the cache's storage format (the bytes themselves without
    compression, the compressed stream with it).  After [Warmup], calling
    [Get] on those keys, in any order and any number of times, succeeds
    every time, and reading each returned stream yields that file's
    blob. *)
Theorem warmup_then_get `{Codec} (d : string) (sz cp : Z) (deflate : bool)
    (c0 c1 : Cache) (fs fs1 : FS) (blobs : list (string * bytes)) :
  New d sz cp deflate = Ok c0 →
  Warmup (c0, fs) = ((c1, fs1), None) →
  Forall (λ kv, kv.1 ≠ ""%string
                ∧ os_Open (Join (dir c0) (escape kv.1)) fs = Ok (encode deflate kv.2))
         blobs →
  (gets (blobs.*1) (c1, fs1)).2 = (λ kv, Ok kv.2) <$> blobs.
Proof.
  intros Hnew Hwarm Hblobs. apply gets_serves.
  eapply Forall_impl; [exact Hblobs|]. intros [k v] [Hk Hopen].
  by apply (Warmup_serves d sz cp deflate c0 c1 fs fs1 k v).
Qed.

Lemma warmup_then_get_witness :
  New "/tmp/stash/" 2048000 40 true = Ok cache_warm0
  ∧ (Warmup (cache_warm0, fs_warm)).2 = None
  ∧ (@gets StoredFrame ["io/ioutil"; "gopher"; "io/ioutil"]%string
       (Warmup (cache_warm0, fs_warm)).1).2
    = [Ok (B "Package ioutil"); Ok (B "The Go gopher"); Ok (B "Package ioutil")].
Proof.
  assert (Hnew : New "/tmp/stash/" 2048000 40 true = Ok cache_warm0) by reflexivity.
  assert (Hwarm : Warmup (cache_warm0, fs_warm)
                  = (((Warmup (cache_warm0, fs_warm)).1.1,
                      (Warmup (cache_warm0, fs_warm)).1.2), None)).
  { vm_compute. reflexivity. }
  split; [exact Hnew|]. split; [by rewrite Hwarm|].
  pose proof (@warmup_then_get StoredFrame "/tmp/stash/" 2048000 40 true
                cache_warm0 (Warmup (cache_warm0, fs_warm)).1.1
                fs_warm (Warmup (cache_warm0, fs_warm)).1.2
                [("io/ioutil"%string, B "Package ioutil");
                 ("gopher"%string, B "The Go gopher");
                 ("io/ioutil"%string, B "Package ioutil")]
                Hnew Hwarm) as Hget.
  rewrite <- surjective_pairing in Hget. apply Hget.
  repeat constructor; simpl; discriminate || (vm_compute; reflexivity).
Defined.

(** The package's [TestWarmup] calls [Get(escape(k))]: for a key that
    escaping changes, the index is then searched under the doubly escaped
    name and the blob is not found. *)
Example warmup_get_escaped_key :
  (Get (escape "io/ioutil") (Warmup (cache_warm0, fs_warm)).1).2 = Err ErrNotFound.
Proof. vm_compute. reflexivity. Qed.

(** ** What does hold around a replaced key and a read-back *)

Lemma length_filter_one (l : list Element) (e : Element) :
  NoDup (eid <$> l) → e ∈ l →
  S (length (filter (λ x, eid x ≠ eid e) l)) = length l.
Proof.
  induction l as [|x l IH]; intros Hnd Hin; [by apply elem_of_nil in Hin|].
  rewrite fmap_cons in Hnd. apply NoDup_cons in Hnd as [Hx Hnd].
  rewrite filter_cons. apply elem_of_cons in Hin as [<-|Hin].
  - rewrite decide_False by (intros Hne; by apply Hne).
    rewrite filter_all; [done|]. apply Forall_forall. intros y Hy Heq.
    apply Hx. rewrite <- Heq. by apply list_elem_of_fmap_2.
  - rewrite decide_True.
    + simpl. by rewrite IH.
    + intros Heq. apply Hx. rewrite Heq. by apply list_elem_of_fmap_2.
Qed.

(** In every state where [key] is mapped to an element of the list,
    [addMeta] keeps the number of entries and still adds one to
    [capUsed] and the whole new size to [sizeUsed]. *)
Lemma addMeta_replace (key path : string) (n : Z) (c : Cache) (item : Element) :
  NoDup (eid <$> items (list_ c)) →
  m c !! key = Some item → item ∈ items (list_ c) →
  length (items (list_ (addMeta key path n c))) = length (items (list_ c))
  ∧ capUsed (addMeta key path n c) = add64 (capUsed c) 1
  ∧ sizeUsed (addMeta key path n c) = add64 (sizeUsed c) n.
Proof.
  intros Hnd Hm Hin. unfold addMeta. rewrite Hm. simpl.
  split; [by apply length_filter_one|done].
Qed.





(** ** The map and the list stay in step *)

Lemma elem_by_eid (l : list Element) (x y : Element) :
  NoDup (eid <$> l) → x ∈ l → y ∈ l → eid x = eid y → x = y.
Proof.
  intros Hnd Hx Hy Heq.
  apply list_elem_of_lookup in Hx as [i Hi], Hy as [j Hj].
  assert (i = j) as ->; [|congruence].
  apply (NoDup_lookup _ i j (eid x) Hnd); rewrite list_lookup_fmap.
  - by rewrite Hi.
  - rewrite Hj. simpl. by rewrite Heq.
Qed.

Lemma index_ok_New (d : string) (sz cp : Z) (deflate : bool) (c : Cache) :
  New d sz cp deflate = Ok c → index_ok c ∧ entry_paths c.
Proof.
  unfold New. destruct (negb (validDir d)); [done|].
  destruct (sz <=? 0); [done|]. destruct (cp <=? 0); [done|].
  intros [= <-]. split; [split|].
  - split; simpl; constructor.
  - intros k e. simpl. rewrite lookup_empty. split; [done|].
    intros [Hin _]. by apply elem_of_nil in Hin.
  - constructor.
Qed.

Lemma index_ok_addMeta (key path : string) (n : Z) (c : Cache) :
  index_ok c → index_ok (addMeta key path n c).
Proof.
  intros [Hwf Hidx]. unfold addMeta.
  set (l1 := match m c !! key with
             | Some item => Remove item (list_ c)
             | None => list_ c
             end).
  assert (Hwf1 : wf_list l1).
  { subst l1. destruct (m c !! key); [by apply wf_list_Remove|done]. }
  assert (Hl1 : ∀ x, x ∈ items l1 ↔ x ∈ items (list_ c) ∧ Key (Value x) ≠ key).
  { intros x. subst l1. destruct (m c !! key) as [item|] eqn:Hm.
    - apply Hidx in Hm as [Hitem Hkey]. simpl.
      rewrite list_elem_of_filter. split.
      + intros [Hne Hx]. split; [done|]. intros Hk. apply Hne.
        assert (m c !! key = Some x) as Hmx by (by apply Hidx).
        assert (m c !! key = Some item) as Hmi by (by apply Hidx).
        congruence.
      + intros [Hx Hk]. split; [|done]. intros Heq. apply Hk.
        rewrite (elem_by_eid _ x item (proj1 Hwf) Hx Hitem Heq). done.
    - split; [|tauto]. intros Hx. split; [done|]. intros Hk.
      assert (m c !! key = Some x) as Hmx by (by apply Hidx). congruence. }
  pose proof (wf_list_PushFront (mkMeta key n path) l1 Hwf1) as Hwf2.
  unfold PushFront in *. simpl in Hwf2. split; [exact Hwf2|].
  intros k e. simpl. rewrite elem_of_cons. destruct (decide (key = k)) as [<-|Hne].
  - rewrite lookup_insert_eq. split.
    + intros [= <-]. by split; [left|].
    + intros [[->|Hin] Hk]; [done|]. apply Hl1 in Hin as [_ Hin]. done.
  - rewrite lookup_insert_ne by done. rewrite Hidx. split.
    + intros [Hin Hk]. split; [|done]. right. apply Hl1. split; [done|congruence].
    + intros [[->|Hin] Hk]; [done|]. apply Hl1 in Hin as [Hin _]. done.
Qed.

Lemma entry_paths_addMeta (key : string) (n : Z) (c : Cache) :
  entry_paths c → entry_paths (addMeta key (Join (dir c) key) n c).
Proof.
  intros Hp. unfold entry_paths, addMeta, PushFront in *. simpl.
  apply Forall_cons. split; [done|].
  destruct (m c !! key); [|done]. simpl.
  apply Forall_forall. intros x [_ Hx]%list_elem_of_filter.
  by apply (proj1 (Forall_forall _ _) Hp).
Qed.

Lemma index_ok_evictLast (c c' : Cache) (fs fs' : FS) (err : option error) :
  index_ok c → entry_paths c →
  evictLast (c, fs) = ((c', fs'), err) →
  index_ok c' ∧ entry_paths c' ∧ same_config c c'.
Proof.
  intros Hinv Hpaths Hev.
  pose proof Hinv as [Hwf Hidx]. pose proof Hpaths as Hp.
  destruct (items (list_ c)) as [|e l _] eqn:Hits using rev_ind.
  - unfold evictLast, Back in Hev. rewrite Hits in Hev. simpl in Hev.
    injection Hev as <- <- <-.
    split; [done|]. split; [done|apply same_config_refl].
  - destruct (evictLast_cases c fs (proj1 Hwf)) as [_ Hcases].
    specialize (Hcases l e Hits).
    destruct (os_Remove (Path (Value e)) fs) as [fs1 [e1|]].
    + destruct Hcases as [Hcases _]. rewrite Hcases in Hev.
      injection Hev as <- <- <-.
      split; [done|]. split; [done|apply same_config_refl].
    + destruct Hcases as (c1 & Hc1 & Hl1 & Hm1 & _ & _ & _ & Hcfg).
      rewrite Hc1 in Hev. injection Hev as <- <- <-.
      injection Hcfg as Hd Hs Hc Hu.
      destruct Hwf as [Hnd Hlt]. rewrite ?Hits in Hnd, Hlt.
      assert (Hnotin : ∀ x, x ∈ l → Key (Value x) ≠ Key (Value e)).
      { intros x Hx Hk.
        assert (x = e) as ->.
        { assert (m c !! Key (Value e) = Some x) as H1.
          { apply Hidx. split; [|done]. apply elem_of_app. by left. }
          assert (m c !! Key (Value e) = Some e) as H2.
          { apply Hidx. split; [|done]. apply elem_of_app. right.
            by apply list_elem_of_singleton. }
          congruence. }
        rewrite fmap_app in Hnd. apply NoDup_app in Hnd as (_ & Hdisj & _).
        apply (Hdisj (eid e)); [by apply list_elem_of_fmap_2|].
        by apply list_elem_of_singleton. }
      split; [split|split; [|done]].
      * rewrite Hl1. split; simpl.
        -- rewrite fmap_app in Hnd. by apply NoDup_app in Hnd as (? & _).
        -- by apply Forall_app in Hlt as [? _].
      * intros k x. rewrite Hm1, Hl1. simpl.
        destruct (decide (Key (Value e) = k)) as [<-|Hne].
        -- rewrite lookup_delete_eq. split; [done|].
           intros [Hx Hk]. by destruct (Hnotin x Hx).
        -- rewrite lookup_delete_ne by done. rewrite Hidx, ?Hits.
           rewrite elem_of_app, list_elem_of_singleton. split.
           ++ intros [[Hx| ->] Hk]; [done|congruence].
           ++ intros [Hx Hk]. by split; [left|].
      * unfold entry_paths in *. rewrite Hl1, Hd. simpl.
        rewrite ?Hits in Hp. by apply Forall_app in Hp as [? _].
Qed.

Lemma index_ok_evictLoop (fuel : nat) (n : Z) (c c' : Cache) (fs fs' : FS)
    (err : option error) :
  index_ok c → entry_paths c →
  evictLoop fuel n (c, fs) = Some ((c', fs'), err) →
  index_ok c' ∧ entry_paths c' ∧ same_config c c'.
Proof.
  revert c fs. induction fuel as [|fuel IH]; intros c fs Hidx Hp Hloop;
    rewrite evictLoop_unfold in Hloop; cbn [fst] in Hloop;
    destruct (size c <? add64 n (sizeUsed c)).
  - discriminate Hloop.
  - injection Hloop as <- <- <-. split; [done|]. split; [done|apply same_config_refl].
  - destruct (evictLast (c, fs)) as [[c1 fs1] [e|]] eqn:Hev;
      destruct (index_ok_evictLast _ _ _ _ _ Hidx Hp Hev) as (Hidx1 & Hp1 & Hc1).
    + by injection Hloop as <- <- <-.
    + destruct (IH c1 fs1 Hidx1 Hp1 Hloop) as (? & ? & ?).
      split; [done|]. split; [done|]. by eapply same_config_trans.
  - injection Hloop as <- <- <-. split; [done|]. split; [done|apply same_config_refl].
Qed.

Lemma index_ok_validate (fuel : nat) (path : string) (n : Z) (c c' : Cache)
    (fs fs' : FS) (err : option error) :
  index_ok c → entry_paths c →
  validate fuel path n (c, fs) = Some ((c', fs'), err) →
  index_ok c' ∧ entry_paths c' ∧ same_config c c'.
Proof.
  intros Hidx Hp Hval. unfold validate in Hval. destruct (size c <? n).
  { injection Hval as <- <- <-. split; [done|]. split; [done|apply same_config_refl]. }
  destruct (evictLoop fuel n (c, fs)) as [[[c1 fs1] [e|]]|] eqn:Hloop;
    [| |discriminate Hval];
    destruct (index_ok_evictLoop _ _ _ _ _ _ _ Hidx Hp Hloop) as (Hidx1 & Hp1 & Hc1).
  - by injection Hval as <- <- <-.
  - cbn [fst] in Hval. destruct (cap c1 <? add64 (capUsed c1) 1).
    + destruct (evictLast (c1, fs1)) as [[c2 fs2] e2] eqn:Hev.
      injection Hval as <- <- <-.
      destruct (index_ok_evictLast _ _ _ _ _ Hidx1 Hp1 Hev) as (? & ? & ?).
      split; [done|]. split; [done|]. by eapply same_config_trans.
    + by injection Hval as <- <- <-.
Qed.

(** [MoveToFront] of a listed element: the element leads, the others keep
    their order. *)
Lemma MoveToFront_listed (e : Element) (l : List) :
  NoDup (eid <$> items l) → e ∈ items l →
  ∃ l1 l2, items l = l1 ++ e :: l2
         ∧ MoveToFront e l = mkList (e :: l1 ++ l2) (nextid l).
Proof.
  intros Hnd Hin. apply list_elem_of_split in Hin as (l1 & l2 & Hl).
  exists l1, l2. split; [done|]. unfold MoveToFront.
  rewrite Hl in Hnd |- *. rewrite fmap_app, fmap_cons in Hnd.
  apply NoDup_app in Hnd as (Hnd1 & Hdisj & Hnd2).
  apply NoDup_cons in Hnd2 as [Hnot2 Hnd2].
  assert (H1 : Forall (λ x, eid x ≠ eid e) l1).
  { apply Forall_forall. intros x Hx Heq. apply (Hdisj (eid x)).
    - by apply list_elem_of_fmap_2.
    - rewrite Heq. apply elem_of_cons. by left. }
  assert (H2 : Forall (λ x, eid x ≠ eid e) l2).
  { apply Forall_forall. intros x Hx Heq. apply Hnot2. rewrite <- Heq.
    by apply list_elem_of_fmap_2. }
  assert (Hfind : list_find (λ x, eid x = eid e) (l1 ++ e :: l2)
                  = Some (length l1, e)).
  { apply list_find_Some. split; [|split; [done|]].
    - by rewrite lookup_app_r, Nat.sub_diag.
    - intros j y Hj Hlt. rewrite lookup_app_l in Hj by done.
      apply (proj1 (Forall_forall _ _) H1). by eapply list_elem_of_lookup_2. }
  rewrite Hfind. f_equal.
  rewrite filter_app, filter_cons_False by (intros Hne; by apply Hne).
  by rewrite !filter_all.
Qed.

Lemma index_ok_Get (key : string) (c c' : Cache) (fs fs' : FS) (r : res ReadCloser) :
  index_ok c → entry_paths c →
  Get key (c, fs) = ((c', fs'), r) →
  index_ok c' ∧ entry_paths c' ∧ same_config c c'.
Proof.
  intros [Hwf Hidx] Hp Hget. unfold Get in Hget.
  destruct (m c !! escape key) as [item|] eqn:Hm.
  - assert (Hc' : c' = mkCache (dir c) (size c) (cap c) (sizeUsed c) (capUsed c)
                         (MoveToFront item (list_ c)) (m c) (useDeflate c)).
    { by destruct (os_Open (Path (Value item)) fs); injection Hget as <- _ _. }
    clear Hget. subst c'. apply Hidx in Hm as [Hin _].
    destruct (MoveToFront_listed item (list_ c) (proj1 Hwf) Hin)
      as (l1 & l2 & Hl & ->).
    destruct Hwf as [Hnd Hlt]. rewrite Hl in Hnd, Hlt.
    split; [split; [split|]|split; [|by unfold same_config]];
      cbn [list_ items m nextid].
    + rewrite fmap_cons, fmap_app. rewrite fmap_app, fmap_cons in Hnd.
      apply NoDup_app in Hnd as (Hnd1 & Hdisj & Hnd2).
      apply NoDup_cons in Hnd2 as [Hnot2 Hnd2].
      apply NoDup_cons. split.
      * rewrite elem_of_app. intros [Hx|Hx]; [|done].
        apply (Hdisj _ Hx). apply elem_of_cons. by left.
      * apply NoDup_app. split; [done|]. split; [|done].
        intros x Hx Hx2. apply (Hdisj x Hx). apply elem_of_cons. by right.
    + apply Forall_app in Hlt as [H1 H2]. apply Forall_cons in H2 as [He H2].
      apply Forall_cons. split; [done|]. by apply Forall_app.
    + intros k x. rewrite Hidx, Hl.
      rewrite elem_of_cons, !elem_of_app, elem_of_cons. tauto.
    + unfold entry_paths in *. cbn [list_ items dir]. rewrite Hl in Hp.
      apply Forall_app in Hp as [H1 H2]. apply Forall_cons in H2 as [He H2].
      apply Forall_cons. split; [done|]. by apply Forall_app.
  - injection Hget as <- <- <-.
    split; [by split|]. split; [done|apply same_config_refl].
Qed.

Lemma index_ok_Warmup (c c' : Cache) (fs fs' : FS) (err : option error) :
  index_ok c → entry_paths c →
  Warmup (c, fs) = ((c', fs'), err) →
  index_ok c' ∧ entry_paths c'.
Proof.
  intros Hidx Hp Hwarm. unfold Warmup in Hwarm.
  destruct (os_ReadDir (dir c) fs) as [infos|e]; [|by injection Hwarm as <- <- <-].
  injection Hwarm as <- <- <-. clear fs.
  revert c Hidx Hp. induction infos as [|file infos IH]; intros c Hidx Hp; [done|].
  simpl. apply IH.
  - by apply index_ok_addMeta.
  - by apply entry_paths_addMeta.
Qed.

Lemma index_ok_register (key : string) (n : Z) (fuel : nat) (c c' : Cache)
    (fs fs' : FS) (err : option error) :
  index_ok c → entry_paths c →
  match validate fuel (Join (dir c) key) n (c, fs) with
  | None => None
  | Some (w1, Some e) => Some (w1, Some e)
  | Some ((c1, fs2), None) => Some ((addMeta key (Join (dir c) key) n c1, fs2), None)
  end = Some ((c', fs'), err) →
  index_ok c' ∧ entry_paths c'.
Proof.
  intros Hidx Hp Hput.
  destruct (validate fuel _ n (c, fs)) as [[[c1 fs2] [e|]]|] eqn:Hval;
    [| |discriminate Hput];
    destruct (index_ok_validate _ _ _ _ _ _ _ _ Hidx Hp Hval)
      as (Hidx1 & Hp1 & (Hd & _)).
  - by injection Hput as <- <- <-.
  - injection Hput as <- <- <-. split; [by apply index_ok_addMeta|].
    rewrite <- Hd. by apply entry_paths_addMeta.
Qed.

Lemma Reachable_index `{Codec} (c : Cache) :
  Reachable c → index_ok c ∧ entry_paths c.
Proof.
  induction 1 as [d sz cp deflate c Hnew
                 |c fs fuel key r c' fs' err _ [Hidx Hp] Hput
                 |c fs fuel key srcpath c' fs' err _ [Hidx Hp] Hput
                 |c fs key c' fs' r _ [Hidx Hp] Hget
                 |c fs c' fs' err _ [Hidx Hp] Hwarm].
  - by apply (index_ok_New d sz cp deflate).
  - unfold PutReader in Hput.
    destruct (writeFile (dir c) (escape key) r (useDeflate c) fs)
      as [fs1 [[path n] [e|]]] eqn:Hw; [by injection Hput as <- <- <-|].
    apply writeFile_count in Hw as [-> _].
    by apply (index_ok_register (escape key) n fuel c c' fs1 fs' err).
  - unfold PutFile in Hput.
    destruct (storeFile c key srcpath fs) as [[fs1 n] [e|]];
      [by injection Hput as <- <- <-|].
    by apply (index_ok_register (escape key) n fuel c c' fs1 fs' err).
  - by destruct (index_ok_Get _ _ _ _ _ _ Hidx Hp Hget) as (? & ? & _).
  - by apply (index_ok_Warmup c c' fs fs' err).
Qed.

(** ** The public view of the index *)

Lemma index_ok_keys_inj (c : Cache) (x y : Element) :
  index_ok c → x ∈ items (list_ c) → y ∈ items (list_ c) →
  Key (Value x) = Key (Value y) → x = y.
Proof.
  intros [_ Hidx] Hx Hy Hk.
  assert (m c !! Key (Value x) = Some x) as H1 by (by apply Hidx).
  assert (m c !! Key (Value x) = Some y) as H2 by (by apply Hidx).
  congruence.
Qed.

Lemma index_ok_recency (c : Cache) :
  index_ok c →
  NoDup (recency c) ∧ ∀ k, is_Some (m c !! k) ↔ k ∈ recency c.
Proof.
  intros Hinv. pose proof Hinv as [[Hnd _] Hidx]. split.
  - unfold recency. apply NoDup_fmap_2_strong; [|by apply (NoDup_fmap_1 eid)].
    intros x y Hx Hy Hk. by apply (index_ok_keys_inj c).
  - intros k. unfold recency. rewrite list_elem_of_fmap. split.
    + intros [e He]. apply Hidx in He as [Hin Hk]. by exists e.
    + intros (e & -> & Hin). exists e. by apply Hidx.
Qed.

Lemma index_ok_size (c : Cache) :
  index_ok c → base.size (m c) = length (items (list_ c)).
Proof.
  intros Hinv. pose proof Hinv as [[Hnd _] Hidx].
  rewrite <- length_map_to_list.
  rewrite <- (length_fmap (λ e, (Key (Value e), e)) (items (list_ c))).
  apply Permutation_length, NoDup_Permutation.
  - apply NoDup_map_to_list.
  - apply NoDup_fmap_2_strong; [|by apply (NoDup_fmap_1 eid)].
    by intros x y _ _ [= _ ->].
  - intros [k e]. rewrite elem_of_map_to_list, Hidx, list_elem_of_fmap. split.
    + intros [Hin <-]. by exists e.
    + by intros (e' & [= -> <-] & Hin).
Qed.

(** X1. In every cache that [New] and the public operations can produce,
    the map and the recency list hold the same keys, no key occurs twice in
    the list, the map has as many entries as the list, and every entry sits
    at the path of its own key inside the storage directory. *)
Theorem reachable_index_agrees `{Codec} (c : Cache) :
  Reachable c →
  NoDup (recency c)
  ∧ (∀ k, is_Some (m c !! k) ↔ k ∈ recency c)
  ∧ base.size (m c) = length (items (list_ c))
  ∧ Forall (λ e, Path (Value e) = Join (dir c) (Key (Value e))) (items (list_ c)).
Proof.
  intros Hreach. destruct (Reachable_index c Hreach) as [Hidx Hp].
  destruct (index_ok_recency c Hidx) as [Hnd Hdom].
  split; [done|]. split; [done|]. split; [by apply index_ok_size|done].
Qed.

(** ** [Get] *)

Lemma filter_key_others (k : string) (l : list Element) :
  Forall (λ x, Key (Value x) ≠ k) l →
  filter (λ k', k' ≠ k) ((λ e, Key (Value e)) <$> l) = (λ e, Key (Value e)) <$> l.
Proof. intros Hall. apply filter_all. by apply Forall_fmap. Qed.

Lemma Get_hit (key : string) (c : Cache) (fs : FS) (e : Element) :
  index_ok c → m c !! escape key = Some e →
  ∃ c', (Get key (c, fs)).1 = (c', fs)
      ∧ recency c' = escape key :: filter (λ k, k ≠ escape key) (recency c)
      ∧ (m c', sizeUsed c', capUsed c') = (m c, sizeUsed c, capUsed c)
      ∧ (Get key (c, fs)).2
        = match os_Open (Path (Value e)) fs with
          | Ok b => Ok (if useDeflate c then DeflateReader b else FileReader b)
          | Err err => Err err
          end.
Proof.
  intros Hinv Hm. pose proof Hinv as [[Hnd _] Hidx].
  pose proof (proj1 (Hidx _ _) Hm) as [Hin Hkey].
  destruct (MoveToFront_listed e (list_ c) Hnd Hin) as (l1 & l2 & Hl & Hmove).
  unfold Get. rewrite Hm, Hmove.
  eexists. split; [by destruct (os_Open (Path (Value e)) fs)|].
  split; [|split; [done|by destruct (os_Open (Path (Value e)) fs)]].
  unfold recency. cbn [list_ items]. rewrite Hl, fmap_cons, !fmap_app, fmap_cons.
  rewrite Hkey. f_equal. rewrite filter_app, filter_cons_False by (intros Hne; by apply Hne).
  assert (Hothers : ∀ x, x ∈ l1 ∨ x ∈ l2 → Key (Value x) ≠ escape key).
  { intros x Hx Hk.
    assert (x = e) as ->.
    { apply (index_ok_keys_inj c); [done| |done|congruence].
      rewrite Hl, elem_of_app, elem_of_cons. tauto. }
    rewrite Hl in Hnd. apply (NoDup_fmap_1 eid) in Hnd.
    apply NoDup_app in Hnd as (_ & Hdisj & Hnd2).
    apply NoDup_cons in Hnd2 as [Hnot2 _].
    destruct Hx as [Hx|Hx]; [|done].
    apply (Hdisj e Hx). apply elem_of_cons. by left. }
  rewrite !filter_key_others; [done|..].
  - apply Forall_forall. intros x Hx. apply Hothers. by right.
  - apply Forall_forall. intros x Hx. apply Hothers. by left.
Qed.

(** X2. [Get] on a reachable cache reports [ErrNotFound] exactly for the
    keys that are not cached, and then changes nothing.  For a cached key
    it moves the key to the front of the recency order and keeps the other
    keys in their order, whether or not the file can then be opened; the
    map, both counters and the file system stay as they were. *)
Theorem Get_promotes `{Codec} (c : Cache) (fs : FS) (key : string) :
  Reachable c →
  ((Get key (c, fs)).2 = Err ErrNotFound ↔ escape key ∉ recency c)
  ∧ (escape key ∉ recency c → Get key (c, fs) = ((c, fs), Err ErrNotFound))
  ∧ (escape key ∈ recency c →
     ∃ c', (Get key (c, fs)).1 = (c', fs)
         ∧ recency c' = escape key :: filter (λ k, k ≠ escape key) (recency c)
         ∧ (m c', sizeUsed c', capUsed c') = (m c, sizeUsed c, capUsed c)).
Proof.
  intros Hreach. destruct (Reachable_index c Hreach) as [Hidx _].
  destruct (index_ok_recency c Hidx) as [_ Hdom].
  assert (Hmiss : escape key ∉ recency c → Get key (c, fs) = ((c, fs), Err ErrNotFound)).
  { intros Hnot. unfold Get.
    destruct (m c !! escape key) as [e|] eqn:Hm; [|done].
    destruct Hnot. apply Hdom. by exists e. }
  split; [split|split; [exact Hmiss|]].
  - intros Hres Hin. apply Hdom in Hin as [e Hm].
    destruct (Get_hit key c fs e Hidx Hm) as (c' & _ & _ & _ & Hr).
    rewrite Hr in Hres. unfold os_Open in Hres.
    destruct (decide (Path (Value e) ∈ denied fs)); [discriminate Hres|].
    destruct (files fs !! Path (Value e)); discriminate Hres.
  - intros Hnot. by rewrite (Hmiss Hnot).
  - intros Hin. apply Hdom in Hin as [e Hm].
    destruct (Get_hit key c fs e Hidx Hm) as (c' & Hc' & Hrec & Hsame & _).
    by exists c'.
Qed.

(** ** [Keys] *)

Lemma string_le_total : Total string_le.
Proof. intros a b. apply String.leb_total. Qed.

(** X3. On a reachable cache [Keys] does not panic; it returns the cached
    keys, each once, in ascending byte order. *)
Theorem Keys_sorted_index `{Codec} (c : Cache) :
  Reachable c →
  ∃ ks, Keys c = Some ks
      ∧ Sorted string_le ks
      ∧ ks ≡ₚ recency c
      ∧ NoDup ks
      ∧ ∀ k, k ∈ ks ↔ is_Some (m c !! k).
Proof.
  intros Hreach. destruct (Reachable_index c Hreach) as [Hidx _].
  destruct (index_ok_recency c Hidx) as [Hnd Hdom].
  pose proof (index_ok_size c Hidx) as Hsize.
  assert (Hlen : length (reverse (recency c)) = base.size (m c)).
  { rewrite length_reverse. unfold recency. by rewrite length_fmap. }
  unfold Keys. rewrite Hlen, Nat.sub_diag. simpl.
  rewrite decide_True by done. rewrite app_nil_r.
  assert (Hperm : sort_Strings (reverse (recency c)) ≡ₚ recency c).
  { unfold sort_Strings. rewrite merge_sort_Permutation. apply reverse_Permutation. }
  eexists. split; [reflexivity|]. split; [|split; [done|split]].
  - apply Sorted_merge_sort, string_le_total.
  - by rewrite Hperm.
  - intros k. by rewrite Hperm, Hdom.
Qed.

Example keys_size_eviction_1 :
  run_Keys 10 40 [("a", "abcdefgh"); ("b", "ij")] = Some ["a"; "b"]%string.
Proof. vm_compute. reflexivity. Qed.

Example keys_size_eviction_2 :
  run_Keys 10 40 [("a", "abcdefgh"); ("b", "ij"); ("c", "k")] = Some ["b"; "c"]%string.
Proof. vm_compute. reflexivity. Qed.

Example keys_size_eviction_3 :
  run_Keys 10 40 [("a", "abcdefgh"); ("b", "ij"); ("c", "k"); ("d", "l"); ("e", "m")]
  = Some ["b"; "c"; "d"; "e"]%string.
Proof. vm_compute. reflexivity. Qed.

Example keys_cap_eviction :
  run_Keys 2048 3 [("a", "abcdefg"); ("b", "hi"); ("c", "k"); ("d", "l"); ("e", "m");
                   ("f", "nopqrstuv")]
  = Some ["d"; "e"; "f"]%string.
Proof. vm_compute. reflexivity. Qed.

(** ** Whatever [evictLast] keeps, [validate] keeps *)

Lemma evictLoop_preserves (P : World → Prop) :
  (∀ w w' err, P w → evictLast w = (w', err) → P w') →
  ∀ fuel n w w' err, P w → evictLoop fuel n w = Some (w', err) → P w'.
Proof.
  intros Hstep fuel n. induction fuel as [|fuel IH]; intros w w' err HP Hloop;
    rewrite evictLoop_unfold in Hloop;
    destruct (size w.1 <? add64 n (sizeUsed w.1)).
  - discriminate Hloop.
  - by injection Hloop as <- <-.
  - destruct (evictLast w) as [w1 [e|]] eqn:Hev.
    + injection Hloop as <- <-. by eapply Hstep.
    + eapply IH; [|exact Hloop]. by eapply Hstep.
  - by injection Hloop as <- <-.
Qed.

Lemma validate_preserves (P : World → Prop) :
  (∀ w w' err, P w → evictLast w = (w', err) → P w') →
  (∀ c fs path, P (c, fs) → P (c, (os_Remove path fs).1)) →
  ∀ fuel path n w w' err, P w → validate fuel path n w = Some (w', err) → P w'.
Proof.
  intros Hstep Hrm fuel path n [c fs] w' err HP Hval. unfold validate in Hval.
  destruct (size c <? n); [injection Hval as <- <-; by apply Hrm|].
  destruct (evictLoop fuel n (c, fs)) as [[w1 [e|]]|] eqn:Hloop;
    [| |discriminate Hval];
    pose proof (evictLoop_preserves P Hstep _ _ _ _ _ HP Hloop) as HP1.
  - by injection Hval as <- <-.
  - destruct (cap w1.1 <? add64 (capUsed w1.1) 1).
    + destruct (evictLast w1) as [w2 e2] eqn:Hev.
      injection Hval as <- <-. by eapply Hstep.
    + by injection Hval as <- <-.
Qed.

(** ** Eviction takes the least recently used entries *)

Lemma os_Remove_shrinks (path p : string) (fs : FS) :
  files fs !! p = None → files (os_Remove path fs).1 !! p = None.
Proof.
  intros Hp. unfold os_Remove. destruct (files fs !! path); [|done].
  destruct (decide (path ∈ pinned fs)); [done|]. simpl.
  destruct (decide (path = p)) as [->|Hne]; [apply lookup_delete_eq|].
  by rewrite lookup_delete_ne.
Qed.

Lemma evicts_refl (w : World) : evicts w w.
Proof. exists []. by rewrite app_nil_r. Qed.

Lemma evicts_trans (w1 w2 w3 : World) : evicts w1 w2 → evicts w2 w3 → evicts w1 w3.
Proof.
  intros (ev1 & Hl1 & Hg1 & Hs1) (ev2 & Hl2 & Hg2 & Hs2).
  exists (ev2 ++ ev1). split; [by rewrite Hl1, Hl2, app_assoc|]. split.
  - apply Forall_app. split; [done|].
    eapply Forall_impl; [exact Hg1|]. intros e. apply Hs2.
  - intros p Hp. by apply Hs2, Hs1.
Qed.

Lemma evictLast_evicts (w w' : World) (err : option error) :
  NoDup (eid <$> items (list_ w.1)) →
  evictLast w = (w', err) →
  evicts w w' ∧ NoDup (eid <$> items (list_ w'.1)).
Proof.
  destruct w as [c fs]. intros Hnd Hev. cbn [fst] in Hnd.
  destruct (evictLast_cases c fs Hnd) as [Hnil Hcases].
  destruct (items (list_ c)) as [|e l _] eqn:Hits using rev_ind.
  - rewrite (Hnil eq_refl) in Hev. injection Hev as <- <-.
    split; [apply evicts_refl|]. simpl. by rewrite Hits.
  - specialize (Hcases l e eq_refl).
    destruct (os_Remove (Path (Value e)) fs) as [fs1 [e1|]] eqn:Hrm.
    + destruct Hcases as [Hcases _]. rewrite Hcases in Hev.
      injection Hev as <- <-. split; [apply evicts_refl|]. simpl. by rewrite Hits.
    + destruct Hcases as (c1 & Hc1 & Hl1 & _ & _ & _ & Hf & _).
      rewrite Hc1 in Hev. injection Hev as <- <-. simpl. rewrite Hl1. simpl.
      split.
      * exists [e]. simpl. rewrite Hl1, Hits. simpl.
        split; [done|]. split.
        -- apply Forall_singleton. rewrite Hf. apply lookup_delete_eq.
        -- intros p Hp. rewrite Hf.
           destruct (decide (Path (Value e) = p)) as [->|Hne];
             [apply lookup_delete_eq|by rewrite lookup_delete_ne].
      * rewrite fmap_app in Hnd. by apply NoDup_app in Hnd as (? & _).
Qed.

Lemma validate_evicts (fuel : nat) (path : string) (n : Z)
    (c c' : Cache) (fs fs' : FS) (err : option error) :
  NoDup (eid <$> items (list_ c)) →
  validate fuel path n (c, fs) = Some ((c', fs'), err) →
  evicts (c, fs) (c', fs').
Proof.
  intros Hnd Hval.
  pose (P := λ w' : World, evicts (c, fs) w' ∧ NoDup (eid <$> items (list_ w'.1))).
  assert (Hstep : ∀ w w1 e1, P w → evictLast w = (w1, e1) → P w1).
  { intros w w1 e1 [Hev Hnd1] Hstep.
    destruct (evictLast_evicts w w1 e1 Hnd1 Hstep) as [Hev1 Hnd2].
    split; [by eapply evicts_trans|done]. }
  assert (Hrm : ∀ c1 fs1 p, P (c1, fs1) → P (c1, (os_Remove p fs1).1)).
  { intros c1 fs1 p [Hev Hnd1]. split; [|done].
    eapply evicts_trans; [exact Hev|]. exists []. simpl.
    split; [by rewrite app_nil_r|]. split; [done|].
    intros q. apply os_Remove_shrinks. }
  assert (HP : P (c, fs)) by (split; [apply evicts_refl|done]).
  exact (proj1 (validate_preserves P Hstep Hrm fuel path n (c, fs) (c', fs') err HP Hval)).
Qed.

(** X4. [validate] evicts from the least-recently-used end only: whenever
    it returns, with or without an error, the recency list is the old one
    without some suffix, the files of the entries of that suffix no longer
    exist, and no file has been created. *)
Theorem validate_evicts_lru_suffix (fuel : nat) (path : string) (n : Z)
    (c c' : Cache) (fs fs' : FS) (err : option error) :
  NoDup (eid <$> items (list_ c)) →
  validate fuel path n (c, fs) = Some ((c', fs'), err) →
  ∃ evicted,
    items (list_ c) = items (list_ c') ++ evicted
    ∧ Forall (λ e, files fs' !! Path (Value e) = None) evicted
    ∧ ∀ p, files fs !! p = None → files fs' !! p = None.
Proof. intros Hnd Hval. exact (validate_evicts fuel path n c c' fs fs' err Hnd Hval). Qed.

(** ** Exact counters without re-puts *)

Lemma sumZ_perm (l l' : list Z) : l ≡ₚ l' → sumZ l = sumZ l'.
Proof.
  induction 1 as [|x l l' _ IH|x y l|l1 l2 l3 _ IH1 _ IH2];
    rewrite ?sumZ_cons; [done|lia|lia|congruence].
Qed.

Lemma sound_New (d : string) (sz cp : Z) (deflate : bool) (c : Cache) :
  2 * sz <= max_int64 → cp < max_int64 →
  New d sz cp deflate = Ok c → sound c ∧ size c = sz ∧ cap c = cp.
Proof.
  intros Hsz Hcp Hnew.
  destruct (budget_inv_New d sz cp deflate c Hsz Hcp Hnew) as (Hb & Hs & Hc).
  destruct (index_ok_New d sz cp deflate c Hnew) as [Hidx Hp].
  split; [|done]. split; [done|]. split; [done|]. split; [done|].
  unfold New in Hnew. destruct (negb (validDir d)); [done|].
  destruct (sz <=? 0); [done|]. destruct (cp <=? 0); [done|].
  by injection Hnew as <-.
Qed.

Lemma sound_evictLast (c c' : Cache) (fs fs' : FS) (err : option error) :
  sound c → evictLast (c, fs) = ((c', fs'), err) → sound c'.
Proof.
  intros (Hb & Hidx & Hp & Hcons) Hev.
  destruct (evictLast_inv _ _ _ _ _ Hb Hev) as (Hb' & _ & _ & _).
  destruct (index_ok_evictLast _ _ _ _ _ Hidx Hp Hev) as (Hidx' & Hp' & _).
  split; [done|]. split; [done|]. split; [done|].
  destruct (evictLast_cases c fs (proj1 (proj1 Hidx))) as [Hnil Hcases].
  destruct (items (list_ c)) as [|e l _] eqn:Hits using rev_ind.
  - rewrite (Hnil eq_refl) in Hev. by injection Hev as <- <- <-.
  - specialize (Hcases l e eq_refl).
    destruct (os_Remove (Path (Value e)) fs) as [fs1 [e1|]].
    + destruct Hcases as [Hcases _]. rewrite Hcases in Hev.
      by injection Hev as <- <- <-.
    + destruct Hcases as (c1 & Hc1 & Hl1 & _ & Hsu & Hcu & _).
      rewrite Hc1 in Hev. injection Hev as <- <- <-.
      destruct Hb as ((Hn1 & Hn2 & Hn3 & Hn4) & _ & Hnn & Hsum & Hcap & _).
      destruct Hcons as [Hcs Hcc].
      unfold entry_sizes in *. rewrite ?Hits in Hnn, Hsum, Hcap, Hcs, Hcc.
      rewrite fmap_app in Hnn, Hsum, Hcs.
      apply Forall_app in Hnn as [Hnnl Hnne].
      rewrite fmap_cons in Hnne. apply Forall_cons_1 in Hnne as [Hnne _].
      rewrite sumZ_app, fmap_cons, sumZ_cons in Hsum, Hcs.
      change (sumZ ((λ e, Size (Value e)) <$> [])) with 0 in Hsum, Hcs.
      rewrite length_app in Hcap, Hcc. simpl in Hcap, Hcc.
      pose proof (sumZ_nonneg _ Hnnl) as Hpos. unfold max_int64 in *.
      unfold counters_consistent, entry_sizes. rewrite Hl1, Hsu, Hcu. simpl.
      unfold sub64. rewrite !wrap64_id
        by (unfold in_int64, min_int64, max_int64; lia).
      split; lia.
Qed.

Lemma unmapped_evictLast (key : string) (w w' : World) (err : option error) :
  m w.1 !! key = None → evictLast w = (w', err) → m w'.1 !! key = None.
Proof.
  destruct w as [c fs]. intros Hm Hev. unfold evictLast in Hev.
  destruct (Back (list_ c)) as [last|]; [|by injection Hev as <- <-].
  destruct (os_Remove (Path (Value last)) fs) as [fs1 [e|]];
    injection Hev as <- <-; [done|]. simpl in *.
  destruct (decide (Key (Value last) = key)) as [->|Hne];
    [apply lookup_delete_eq|by rewrite lookup_delete_ne].
Qed.

Lemma sound_addMeta_unmapped (key : string) (n : Z) (c : Cache) :
  sound c → 0 <= n →
  n + sizeUsed c <= size c → capUsed c + 1 <= cap c →
  m c !! key = None →
  sound (addMeta key (Join (dir c) key) n c).
Proof.
  intros (Hb & Hidx & Hp & [Hcs Hcc]) Hn Hroom Hslot Hm.
  destruct (addMeta_inv key (Join (dir c) key) n c Hb Hn Hroom Hslot) as [Hb' _].
  split; [done|]. split; [by apply index_ok_addMeta|].
  split; [by apply entry_paths_addMeta|].
  destruct Hb as ((Hn1 & Hn2 & Hn3 & Hn4) & _ & Hnn & Hsum & Hcap & _).
  pose proof (sumZ_nonneg _ Hnn) as Hpos. unfold max_int64 in *.
  unfold counters_consistent, entry_sizes, addMeta, PushFront in *.
  rewrite Hm. cbn [list_ items sizeUsed capUsed].
  rewrite fmap_cons, sumZ_cons, length_cons. cbn [Size Value].
  unfold add64. rewrite !wrap64_id
    by (unfold in_int64, min_int64, max_int64; lia).
  split; lia.
Qed.

Lemma sound_Put_uncached `{Codec} (fuel : nat) (key : string) (val : bytes)
    (c c' : Cache) (fs fs' : FS) (err : option error) :
  sound c → Z.of_nat (length val) <= max_int64 →
  m c !! escape key = None →
  Put fuel key val (c, fs) = Some ((c', fs'), err) →
  sound c' ∧ same_config c c'.
Proof.
  intros Hs Hlen Hm Hput. unfold Put, PutReader in Hput.
  destruct (writeFile_bytes (dir c) (escape key) val (useDeflate c) fs)
    as [[_ Hw]|[fs1 Hw]]; rewrite Hw in Hput.
  { injection Hput as <- <- <-. split; [done|apply same_config_refl]. }
  rewrite (len64_small _ Hlen) in Hput.
  assert (Hn : 0 <= Z.of_nat (length val)) by lia.
  destruct (validate fuel _ _ (c, fs1)) as [[[c1 fs2] e1]|] eqn:Hval;
    [|discriminate Hput].
  pose (P := λ w : World, sound w.1 ∧ m w.1 !! escape key = None).
  assert (Hstep : ∀ w w' err', P w → evictLast w = (w', err') → P w').
  { intros [a b] [a' b'] e [Ha Hb] Hev. split.
    - by apply (sound_evictLast a a' b b' e).
    - by apply (unmapped_evictLast (escape key) (a, b) (a', b') e). }
  assert (Hrm : ∀ a b p, P (a, b) → P (a, (os_Remove p b).1)) by (by intros).
  assert (HP : P (c, fs1)) by (by split).
  destruct (validate_preserves P Hstep Hrm fuel (Join (dir c) (escape key))
              (Z.of_nat (length val)) (c, fs1) (c1, fs2) e1 HP Hval) as [Hs1 Hm1].
  cbn [fst] in Hs1, Hm1.
  destruct (validate_inv _ _ _ _ _ _ _ _ (proj1 Hs) Hn Hval) as (_ & Hcfg & Hroom).
  destruct e1 as [e1|]; injection Hput as <- <- <-; [done|].
  destruct (Hroom eq_refl) as [Hbytes Hslot]. pose proof Hcfg as (Hd & _).
  split.
  - rewrite <- Hd. by apply sound_addMeta_unmapped.
  - eapply same_config_trans; [exact Hcfg|]. by unfold same_config.
Qed.

Lemma sound_Get (key : string) (c c' : Cache) (fs fs' : FS) (r : res ReadCloser) :
  sound c → Get key (c, fs) = ((c', fs'), r) → sound c' ∧ same_config c c'.
Proof.
  intros Hs Hget. pose proof Hs as (Hb & Hidx & Hp & [Hcs Hcc]).
  destruct (index_ok_Get _ _ _ _ _ _ Hidx Hp Hget) as (Hidx' & Hp' & Hcfg).
  split; [|done].
  destruct (m c !! escape key) as [e|] eqn:Hm.
  - destruct (Get_hit key c fs e Hidx Hm) as (c1 & Hc1 & _ & Hsame & _).
    rewrite Hget in Hc1. injection Hc1 as <-. injection Hsame as _ Hsu Hcu.
    pose proof (proj1 (proj2 Hidx _ _) Hm) as [Hin _].
    destruct (MoveToFront_listed e (list_ c) (proj1 (proj1 Hidx)) Hin)
      as (l1 & l2 & Hl & Hmove).
    assert (Hits : items (list_ c') = e :: l1 ++ l2).
    { unfold Get in Hget. rewrite Hm, Hmove in Hget.
      by destruct (os_Open (Path (Value e)) fs); injection Hget as <- _ _. }
    assert (Hperm : items (list_ c') ≡ₚ items (list_ c)).
    { rewrite Hits, Hl. by rewrite Permutation_middle. }
    destruct Hcfg as (_ & Hsz & Hcp & _).
    destruct Hb as (Hno & _ & Hnn & Hsum & Hcap & Hdrift).
    assert (Hsizes : entry_sizes c' ≡ₚ entry_sizes c)
      by (unfold entry_sizes; by rewrite Hperm).
    split; [|split; [done|split; [done|]]].
    + unfold budget_inv, no_overflow.
      rewrite Hsz, Hcp, Hsu, Hcu, (sumZ_perm _ _ Hsizes), Hperm.
      split; [done|]. split; [exact (proj1 Hidx')|].
      split; [by rewrite Hsizes|done].
    + unfold counters_consistent.
      by rewrite Hsu, Hcu, (sumZ_perm _ _ Hsizes), Hperm.
  - unfold Get in Hget. rewrite Hm in Hget. by injection Hget as <- <- <-.
Qed.

Lemma NoReput_sound `{Codec} (d : string) (sz cp : Z) (deflate : bool) (c : Cache) :
  2 * sz <= max_int64 → cp < max_int64 →
  NoReput d sz cp deflate c → sound c ∧ size c = sz ∧ cap c = cp.
Proof.
  intros Hsz Hcp.
  induction 1 as [c Hnew|c fs fuel key val c' fs' err _ IH Hlen Hm Hput
                 |c fs key c' fs' r _ IH Hget].
  - by apply (sound_New d sz cp deflate).
  - destruct IH as (Hs & <- & <-).
    destruct (sound_Put_uncached _ _ _ _ _ _ _ _ Hs Hlen Hm Hput)
      as [Hs' (_ & Hs1 & Hc1 & _)]. done.
  - destruct IH as (Hs & <- & <-).
    destruct (sound_Get _ _ _ _ _ _ Hs Hget) as [Hs' (_ & Hs1 & Hc1 & _)]. done.
Qed.

(** X5. As long as no key is put while it is cached, the counters are
    exact: after any sequence of [Get]s and of [Put]s of uncached keys from
    [New] (whatever each call returns), [sizeUsed] is the sum of the
    entries' sizes and [capUsed] their number. *)
Theorem counters_exact_without_reput `{Codec} (d : string) (sz cp : Z)
    (deflate : bool) (c : Cache) :
  2 * sz <= max_int64 → cp < max_int64 →
  NoReput d sz cp deflate c →
  sizeUsed c = sumZ (entry_sizes c)
  ∧ capUsed c = Z.of_nat (length (items (list_ c))).
Proof.
  intros Hsz Hcp Hreach.
  by destruct (NoReput_sound d sz cp deflate c Hsz Hcp Hreach)
    as ((_ & _ & _ & Hcons) & _).
Qed.

(** ** Every [Put] returns without re-puts

    Modulo 2^64 the additions of [addMeta] and the subtractions of
    [evictLast] cancel, whatever the budgets are. *)

Lemma wrap64_add_l (a b : Z) : wrap64 (wrap64 a + b) = wrap64 (a + b).
Proof.
  unfold wrap64.
  replace ((a + 2 ^ 63) mod 2 ^ 64 - 2 ^ 63 + b + 2 ^ 63)
    with ((a + 2 ^ 63) mod 2 ^ 64 + b) by lia.
  rewrite Zplus_mod_idemp_l. do 2 f_equal. lia.
Qed.

Lemma wrap64_sub_l (a b : Z) : wrap64 (wrap64 a - b) = wrap64 (a - b).
Proof. apply (wrap64_add_l a (- b)). Qed.

Lemma tracked_New (d : string) (sz cp : Z) (deflate : bool) (c : Cache) :
  New d sz cp deflate = Ok c → tracked c.
Proof.
  intros Hnew. destruct (index_ok_New d sz cp deflate c Hnew) as [Hidx Hp].
  split; [done|]. split; [done|].
  unfold New in Hnew. destruct (negb (validDir d)); [done|].
  destruct (sz <=? 0); [done|]. destruct (cp <=? 0); [done|].
  by injection Hnew as <-.
Qed.

(** [evictLast] keeps [tracked]; when it returns [nil] on a non-empty list,
    the list has lost one entry. *)
Lemma tracked_evictLast (c c' : Cache) (fs fs' : FS) (err : option error) :
  tracked c → evictLast (c, fs) = ((c', fs'), err) →
  tracked c'
  ∧ size c' = size c
  ∧ (err = None → items (list_ c) ≠ [] →
     S (length (items (list_ c'))) = length (items (list_ c))).
Proof.
  intros (Hidx & Hp & Hsu) Hev.
  destruct (index_ok_evictLast _ _ _ _ _ Hidx Hp Hev)
    as (Hidx' & Hp' & (_ & Hsz & _)).
  destruct (evictLast_cases c fs (proj1 (proj1 Hidx))) as [Hnil Hcases].
  destruct (items (list_ c)) as [|e l _] eqn:Hits using rev_ind.
  - rewrite (Hnil eq_refl) in Hev. injection Hev as <- <- <-.
    split; [done|]. split; [done|]. by intros _ [].
  - specialize (Hcases l e eq_refl).
    destruct (os_Remove (Path (Value e)) fs) as [fs1 [e1|]].
    + destruct Hcases as [Hcases _]. rewrite Hcases in Hev.
      injection Hev as <- <- <-. split; [done|]. split; [done|]. by intros [=].
    + destruct Hcases as (c1 & Hc1 & Hl1 & _ & Hsu1 & _).
      rewrite Hc1 in Hev. injection Hev as <- <- <-.
      split; [|split; [done|]].
      * split; [done|]. split; [done|].
        unfold entry_sizes in *. rewrite ?Hits in Hsu.
        rewrite fmap_app, sumZ_app, fmap_cons, sumZ_cons in Hsu.
        change (sumZ ((λ e, Size (Value e)) <$> [])) with 0 in Hsu.
        rewrite Hsu1, Hl1, Hsu. cbn [items]. unfold sub64.
        rewrite wrap64_sub_l. f_equal. lia.
      * intros _ _. rewrite Hl1. cbn [items]. rewrite length_app. simpl. lia.
Qed.

Lemma tracked_addMeta_unmapped (key : string) (n : Z) (c : Cache) :
  tracked c → m c !! key = None →
  tracked (addMeta key (Join (dir c) key) n c).
Proof.
  intros (Hidx & Hp & Hsu) Hm.
  split; [by apply index_ok_addMeta|]. split; [by apply entry_paths_addMeta|].
  unfold entry_sizes, addMeta, PushFront in *.
  rewrite Hm. cbn [list_ items sizeUsed].
  rewrite fmap_cons, sumZ_cons. cbn [Size Value].
  unfold add64. rewrite Hsu, wrap64_add_l. f_equal. lia.
Qed.

Lemma tracked_Put_uncached `{Codec} (fuel : nat) (key : string) (val : bytes)
    (c c' : Cache) (fs fs' : FS) (err : option error) :
  tracked c → m c !! escape key = None →
  Put fuel key val (c, fs) = Some ((c', fs'), err) →
  tracked c'.
Proof.
  intros Ht Hm Hput. unfold Put, PutReader in Hput.
  destruct (writeFile_bytes (dir c) (escape key) val (useDeflate c) fs)
    as [[_ Hw]|[fs1 Hw]]; rewrite Hw in Hput.
  { by injection Hput as <- <- <-. }
  destruct (validate fuel _ _ (c, fs1)) as [[[c1 fs2] e1]|] eqn:Hval;
    [|discriminate Hput].
  pose (P := λ w : World, tracked w.1 ∧ m w.1 !! escape key = None).
  assert (Hstep : ∀ w w' err', P w → evictLast w = (w', err') → P w').
  { intros [a b] [a' b'] e [Ha Hb] Hev. split.
    - by destruct (tracked_evictLast a a' b b' e Ha Hev).
    - by apply (unmapped_evictLast (escape key) (a, b) (a', b') e). }
  assert (Hrm : ∀ a b p, P (a, b) → P (a, (os_Remove p b).1)) by (by intros).
  assert (HP : P (c, fs1)) by (by split).
  destruct (validate_preserves P Hstep Hrm fuel (Join (dir c) (escape key))
              (len64 val) (c, fs1) (c1, fs2) e1 HP Hval) as [Ht1 Hm1].
  cbn [fst] in Ht1, Hm1.
  destruct (index_ok_validate _ _ _ _ _ _ _ _ (proj1 Ht) (proj1 (proj2 Ht)) Hval)
    as (_ & _ & (Hd & _)).
  destruct e1 as [e1|]; injection Hput as <- <- <-; [done|].
  rewrite <- Hd. by apply tracked_addMeta_unmapped.
Qed.

Lemma tracked_Get (key : string) (c c' : Cache) (fs fs' : FS) (r : res ReadCloser) :
  tracked c → Get key (c, fs) = ((c', fs'), r) → tracked c'.
Proof.
  intros (Hidx & Hp & Hsu) Hget.
  destruct (index_ok_Get _ _ _ _ _ _ Hidx Hp Hget) as (Hidx' & Hp' & _).
  split; [done|]. split; [done|].
  destruct (m c !! escape key) as [e|] eqn:Hm.
  - destruct (Get_hit key c fs e Hidx Hm) as (c1 & Hc1 & _ & Hsame & _).
    rewrite Hget in Hc1. injection Hc1 as <-. injection Hsame as _ Hsu1 _.
    pose proof (proj1 (proj2 Hidx _ _) Hm) as [Hin _].
    destruct (MoveToFront_listed e (list_ c) (proj1 (proj1 Hidx)) Hin)
      as (l1 & l2 & Hl & Hmove).
    assert (Hits : items (list_ c') = e :: l1 ++ l2).
    { unfold Get in Hget. rewrite Hm, Hmove in Hget.
      by destruct (os_Open (Path (Value e)) fs); injection Hget as <- _ _. }
    assert (Hperm : items (list_ c') ≡ₚ items (list_ c)).
    { rewrite Hits, Hl. by rewrite Permutation_middle. }
    assert (Hsizes : entry_sizes c' ≡ₚ entry_sizes c)
      by (unfold entry_sizes; by rewrite Hperm).
    by rewrite Hsu1, (sumZ_perm _ _ Hsizes).
  - unfold Get in Hget. rewrite Hm in Hget. by injection Hget as <- <- <-.
Qed.

Lemma NoReput_tracked `{Codec} (d : string) (sz cp : Z) (deflate : bool) (c : Cache) :
  NoReput d sz cp deflate c → tracked c.
Proof.
  induction 1 as [c Hnew|c fs fuel key val c' fs' err _ IH _ Hm Hput
                 |c fs key c' fs' r _ IH Hget].
  - by apply (tracked_New d sz cp deflate).
  - by apply (tracked_Put_uncached fuel key val c c' fs fs' err).
  - by apply (tracked_Get key c c' fs fs' r).
Qed.

(** The loop of [validate] runs at most once per entry: with the list
    empty [sizeUsed] is 0, and [n] alone is within the budget. *)
Lemma evictLoop_terminates (fuel : nat) (n : Z) (c : Cache) (fs : FS) :
  tracked c → in_int64 n → n <= size c →
  (length (items (list_ c)) <= fuel)%nat →
  is_Some (evictLoop fuel n (c, fs)).
Proof.
  revert c fs. induction fuel as [|fuel IH]; intros c fs Ht Hn Hle Hlen;
    rewrite evictLoop_unfold; cbn [fst];
    destruct (size c <? add64 n (sizeUsed c)) eqn:Hcond; try done.
  all: apply Z.ltb_lt in Hcond.
  all: assert (Hne : items (list_ c) ≠ []).
  1, 3: intros Hnil; destruct Ht as (_ & _ & Hsu);
        unfold entry_sizes in Hsu; rewrite Hnil in Hsu;
        change (sumZ ((λ e, Size (Value e)) <$> [])) with 0 in Hsu;
        rewrite Hsu in Hcond; unfold add64 in Hcond;
        change (wrap64 0) with 0 in Hcond;
        rewrite Z.add_0_r, (wrap64_id n Hn) in Hcond; lia.
  - destruct (items (list_ c)); [done|simpl in Hlen; lia].
  - destruct (evictLast (c, fs)) as [[c1 fs1] [e|]] eqn:Hev; [done|].
    destruct (tracked_evictLast _ _ _ _ _ Ht Hev) as (Ht1 & Hsz & Hshrink).
    apply IH; [done|done|lia|].
    specialize (Hshrink eq_refl Hne). lia.
Qed.

(** X6. Every [Put] on a cache reached without re-puts returns, for any
    key (cached or not) and any value: the loop of [validate] ends after
    at most one iteration per cached entry. *)
Theorem Put_returns_without_reput `{Codec} (d : string) (sz cp : Z)
    (deflate : bool) (c : Cache) (fs : FS) (key : string) (val : bytes) (fuel : nat) :
  NoReput d sz cp deflate c →
  (length (items (list_ c)) <= fuel)%nat →
  is_Some (Put fuel key val (c, fs)).
Proof.
  intros Hreach Hfuel.
  pose proof (NoReput_tracked d sz cp deflate c Hreach) as Ht.
  unfold Put, PutReader.
  destruct (writeFile_bytes (dir c) (escape key) val (useDeflate c) fs)
    as [[_ ->]|[fs1 ->]]; [done|].
  unfold validate.
  destruct (size c <? len64 val) eqn:Hbig; [done|].
  apply Z.ltb_ge in Hbig.
  destruct (evictLoop_terminates fuel (len64 val) c fs1 Ht
              (wrap64_range _) Hbig Hfuel) as [[[c1 fs2] [e|]] ->]; [done|].
  cbn [fst]. destruct (cap c1 <? add64 (capUsed c1) 1); [|done].
  by destruct (evictLast (c1, fs2)) as [[c2 fs3] [e|]].
Qed.

(** ** Keys and paths *)

Lemma escape_char_decode (a : ascii) :
  (shouldEscape a = false → Ascii.eqb a "+" = false ∧ Ascii.eqb a "%" = false)
  ∧ (Nat.eqb (nat_of_ascii a) 32 = true → a = " "%char)
  ∧ ascii_of_nat (Nat.add (Nat.mul 16 (unhex (upperhex (Nat.div (nat_of_ascii a) 16))))
                          (unhex (upperhex (Nat.modulo (nat_of_ascii a) 16)))) = a.
Proof.
  destruct a as [[] [] [] [] [] [] [] []]; vm_compute;
    (split; [|split]); (reflexivity || discriminate || (intros _; split; reflexivity)).
Qed.

Lemma unescape_plus (t : string) : unescape (String "+" t) = String " " (unescape t).
Proof. reflexivity. Qed.

Lemma unescape_percent (h l : ascii) (t : string) :
  unescape (String "%" (String h (String l t)))
  = String (ascii_of_nat (Nat.add (Nat.mul 16 (unhex h)) (unhex l))) (unescape t).
Proof. reflexivity. Qed.

Lemma unescape_plain (a : ascii) (t : string) :
  Ascii.eqb a "+" = false → Ascii.eqb a "%" = false →
  unescape (String a t) = String a (unescape t).
Proof. intros H1 H2. cbn [unescape]. by rewrite H1, H2. Qed.

Lemma unescape_escape (k : string) : unescape (escape k) = k.
Proof.
  unfold escape. induction k as [|a k IH]; [done|].
  destruct (escape_char_decode a) as (Hplain & Hspace & Hhex).
  cbn [QueryEscape]. destruct (shouldEscape a).
  - destruct (Nat.eqb (nat_of_ascii a) 32).
    + by rewrite unescape_plus, IH, (Hspace eq_refl).
    + by rewrite unescape_percent, IH, Hhex.
  - destruct (Hplain eq_refl) as [H1 H2]. by rewrite unescape_plain, IH.
Qed.



(** X7. [escape] is collision-free on keys: two different keys never get
    the same escaped name; and an escaped name never contains a path
    separator. *)
Theorem escape_collision_free (k1 k2 : string) :
  (k1 ≠ k2 → escape k1 ≠ escape k2)
  ∧ has_sep (escape k1) = false.
Proof.
  split; [|apply has_sep_escape].
  intros Hne Heq. apply Hne.
  rewrite <- (unescape_escape k1), <- (unescape_escape k2).
  by rewrite Heq.
Qed.

Lemma escape_collision_free_witness :
  "a b"%string ≠ "a+b"%string
  ∧ escape "a b" = "a+b"%string
  ∧ escape "a+b" = "a%2Bb"%string
  ∧ escape "a b" ≠ escape "a+b"
  ∧ has_sep (escape "a b") = false.
Proof.
  assert (Hne : "a b"%string ≠ "a+b"%string) by discriminate.
  destruct (escape_collision_free "a b" "a+b") as [Hinj Hsep].
  split; [exact Hne|]. split; [reflexivity|]. split; [reflexivity|].
  split; [exact (Hinj Hne)|exact Hsep].
Defined.

(** ** Reachability of the concrete states *)

Lemma Reachable_cache_ab : @Reachable StoredFrame cache_ab.
Proof.
  apply (@Reachable_PutReader StoredFrame cache_a fs_a 10%nat "b"
           (bytes_NewReader (B "ij")) cache_ab fs_ab None).
  - apply (@Reachable_PutReader StoredFrame cache_new emptyFS 10%nat "a"
             (bytes_NewReader (B "abcdefgh")) cache_a fs_a None).
    + apply (@Reachable_New StoredFrame "/tmp/stash" 10 40 false). reflexivity.
    + vm_compute. reflexivity.
  - vm_compute. reflexivity.
Qed.

Lemma NoReput_cache_ab : @NoReput StoredFrame "/tmp/stash" 10 40 false cache_ab.
Proof.
  apply (@NoReput_Put StoredFrame "/tmp/stash" 10 40 false
           cache_a fs_a 10%nat "b" (B "ij") cache_ab fs_ab None).
  - apply (@NoReput_Put StoredFrame "/tmp/stash" 10 40 false
             cache_new emptyFS 10%nat "a" (B "abcdefgh") cache_a fs_a None).
    + apply NoReput_New. reflexivity.
    + by vm_compute.
    + reflexivity.
    + vm_compute. reflexivity.
  - by vm_compute.
  - reflexivity.
  - vm_compute. reflexivity.
Qed.

Lemma reachable_index_agrees_witness :
  @Reachable StoredFrame cache_ab
  ∧ NoDup (recency cache_ab)
  ∧ base.size (m cache_ab) = length (items (list_ cache_ab)).
Proof.
  split; [exact Reachable_cache_ab|].
  destruct (@reachable_index_agrees StoredFrame cache_ab Reachable_cache_ab)
    as (Hnd & _ & Hsize & _).
  split; assumption.
Defined.

Lemma Get_promotes_witness :
  @Reachable StoredFrame cache_ab
  ∧ escape "a" ∈ recency cache_ab
  ∧ ∃ c', (Get "a" (cache_ab, fs_ab)).1 = (c', fs_ab)
        ∧ recency c' = ["a"; "b"]%string.
Proof.
  split; [exact Reachable_cache_ab|].
  assert (Hin : escape "a" ∈ recency cache_ab).
  { apply (bool_decide_unpack _). vm_compute. exact I. }
  split; [exact Hin|].
  destruct (@Get_promotes StoredFrame cache_ab fs_ab "a" Reachable_cache_ab)
    as (_ & _ & Hhit).
  destruct (Hhit Hin) as (c' & Hc' & Hrec & _).
  exists c'. split; [exact Hc'|]. rewrite Hrec. vm_compute. reflexivity.
Defined.

Lemma Keys_sorted_index_witness :
  @Reachable StoredFrame cache_ab
  ∧ ∃ ks, Keys cache_ab = Some ks ∧ Sorted string_le ks ∧ ks ≡ₚ recency cache_ab.
Proof.
  split; [exact Reachable_cache_ab|].
  destruct (@Keys_sorted_index StoredFrame cache_ab Reachable_cache_ab)
    as (ks & Hks & Hsorted & Hperm & _).
  exists ks. split; [exact Hks|]. split; assumption.
Defined.

Lemma validate_evicts_lru_suffix_witness :
  NoDup (eid <$> items (list_ cache_ab))
  ∧ ∃ c' fs' err evicted,
      validate 10 "/tmp/stash/c" 1 (cache_ab, fs_ab) = Some ((c', fs'), err)
      ∧ items (list_ cache_ab) = items (list_ c') ++ evicted.
Proof.
  assert (Hnd : NoDup (eid <$> items (list_ cache_ab))).
  { apply (bool_decide_unpack _). vm_compute. exact I. }
  split; [exact Hnd|].
  destruct (validate 10 "/tmp/stash/c" 1 (cache_ab, fs_ab))
    as [[[c' fs'] err]|] eqn:Hval.
  - destruct (validate_evicts_lru_suffix 10 "/tmp/stash/c" 1 cache_ab c'
                fs_ab fs' err Hnd Hval) as (evicted & Hl & _).
    by exists c', fs', err, evicted.
  - vm_compute in Hval. discriminate Hval.
Defined.

Lemma counters_exact_without_reput_witness :
  2 * 10 <= max_int64 ∧ 40 < max_int64
  ∧ @NoReput StoredFrame "/tmp/stash" 10 40 false cache_ab
  ∧ sizeUsed cache_ab = sumZ (entry_sizes cache_ab)
  ∧ capUsed cache_ab = Z.of_nat (length (items (list_ cache_ab))).
Proof.
  assert (Hsz : 2 * 10 <= max_int64) by (by vm_compute).
  assert (Hcp : 40 < max_int64) by reflexivity.
  split; [exact Hsz|]. split; [exact Hcp|]. split; [exact NoReput_cache_ab|].
  exact (@counters_exact_without_reput StoredFrame "/tmp/stash" 10 40 false
           cache_ab Hsz Hcp NoReput_cache_ab).
Defined.

Lemma Put_returns_without_reput_witness :
  @NoReput StoredFrame "/tmp/stash" 10 40 false cache_ab
  ∧ (length (items (list_ cache_ab)) <= 2)%nat
  ∧ is_Some (@Put StoredFrame 2 "a" (B "klm") (cache_ab, fs_ab)).
Proof.
  assert (Hfuel : (length (items (list_ cache_ab)) <= 2)%nat) by (simpl; lia).
  split; [exact NoReput_cache_ab|]. split; [exact Hfuel|].
  exact (@Put_returns_without_reput StoredFrame "/tmp/stash" 10 40 false
           cache_ab fs_ab "a" (B "klm") 2%nat NoReput_cache_ab Hfuel).
Defined.

(** ** Reading back what was put *)




(** ** What a [Put] leaves behind *)

Lemma Put_cases `{Codec} (fuel : nat) (key : string) (val : bytes)
    (c c' : Cache) (fs fs' : FS) (err : option error) :
  Put fuel key val (c, fs) = Some ((c', fs'), err) →
  (c' = c ∧ fs' = fs ∧ Join (dir c) (escape key) ∈ denied fs
   ∧ err = Some (FileError (dir c) (escape key) (PathError EACCES)))
  ∨ ∃ fs1,
      writeFile (dir c) (escape key) (bytes_NewReader val) (useDeflate c) fs
        = (fs1, (Join (dir c) (escape key), len64 val, None))
      ∧ ((∃ e, err = Some e
               ∧ validate fuel (Join (dir c) (escape key)) (len64 val) (c, fs1)
                 = Some ((c', fs'), Some e))
         ∨ (∃ c1, err = None
               ∧ validate fuel (Join (dir c) (escape key)) (len64 val) (c, fs1)
                 = Some ((c1, fs'), None)
               ∧ c' = addMeta (escape key) (Join (dir c) (escape key)) (len64 val) c1)).
Proof.
  intros Hput. unfold Put, PutReader in Hput.
  destruct (writeFile_bytes (dir c) (escape key) val (useDeflate c) fs)
    as [[Hd Hw]|[fs1 Hw]]; rewrite Hw in Hput.
  - left. by injection Hput as <- <- <-.
  - right. exists fs1. split; [done|].
    destruct (validate fuel _ _ (c, fs1)) as [[[c1 fs2] [e|]]|];
      [| |discriminate Hput]; injection Hput as <- <- <-.
    + left. by exists e.
    + right. by exists c1.
Qed.

(** X9. A [Put] that returns [nil] makes its key the most recently used
    entry, recorded under the escaped key with the number of bytes put and
    the path of the key in the storage directory; behind it come entries of
    the old list only, in their old order.  A [Put] that returns an error
    adds nothing: the list is the old one without some suffix (what the
    eviction had already removed when it failed). *)
Theorem Put_outcome `{Codec} (fuel : nat) (key : string) (val : bytes)
    (c c' : Cache) (fs fs' : FS) (err : option error) :
  NoDup (eid <$> items (list_ c)) →
  Put fuel key val (c, fs) = Some ((c', fs'), err) →
  match err with
  | None =>
      ∃ e rest,
        items (list_ c') = e :: rest
        ∧ m c' !! escape key = Some e
        ∧ Value e = mkMeta (escape key) (len64 val) (Join (dir c) (escape key))
        ∧ rest `sublist_of` items (list_ c)
  | Some _ =>
      ∃ evicted, items (list_ c) = items (list_ c') ++ evicted
  end.
Proof.
  intros Hnd Hput.
  destruct (Put_cases fuel key val c c' fs fs' err Hput)
    as [(-> & _ & _ & ->)|(fs1 & _ & [(e & -> & Hval)|(c1 & -> & Hval & ->)])].
  - exists []. by rewrite app_nil_r.
  - destruct (validate_evicts _ _ _ _ _ _ _ _ Hnd Hval) as (evicted & Hl & _).
    by exists evicted.
  - destruct (validate_evicts _ _ _ _ _ _ _ _ Hnd Hval) as (evicted & Hl & _).
    simpl in Hl. unfold addMeta, PushFront. cbn [list_ items m].
    eexists _, _. split; [reflexivity|]. split; [apply lookup_insert_eq|].
    split; [reflexivity|].
    transitivity (items (list_ c1)).
    + destruct (m c1 !! escape key); [|done]. simpl. apply sublist_filter.
    + rewrite Hl. by apply sublist_inserts_r.
Qed.

Lemma Put_outcome_witness :
  NoDup (eid <$> items (list_ cache_ab))
  ∧ ∃ c' fs' e rest,
      @Put StoredFrame 10 "c" (B "k") (cache_ab, fs_ab) = Some ((c', fs'), None)
      ∧ items (list_ c') = e :: rest
      ∧ Value e = mkMeta "c" 1 "/tmp/stash/c"
      ∧ rest `sublist_of` items (list_ cache_ab).
Proof.
  assert (Hnd : NoDup (eid <$> items (list_ cache_ab))).
  { apply (bool_decide_unpack _). vm_compute. exact I. }
  split; [exact Hnd|].
  destruct (@Put StoredFrame 10 "c" (B "k") (cache_ab, fs_ab))
    as [[[c' fs'] [err|]]|] eqn:Hput.
  - vm_compute in Hput. discriminate Hput.
  - pose proof (@Put_outcome StoredFrame 10 "c" (B "k") cache_ab c' fs_ab fs'
                  None Hnd Hput) as (e & rest & Hl & _ & Hv & Hsub).
    exists c', fs', e, rest. split; [reflexivity|]. split; [exact Hl|].
    split; [exact Hv|exact Hsub].
  - vm_compute in Hput. discriminate Hput.
Defined.

(** X10. When the reader handed to [PutReader] fails, or the file cannot
    be created, the call returns the error wrapped in a [FileError] and the
    cache is untouched.  After a failed read the bytes read so far are left
    in the file of the key, replacing whatever blob was stored there; after
    a failed create the file system is untouched too. *)
Theorem PutReader_write_errors `{Codec} (fuel : nat) (key : string) (r : Reader)
    (c : Cache) (fs : FS) :
  let path := Join (dir c) (escape key) in
  (path ∈ denied fs →
     PutReader fuel key r (c, fs)
     = Some ((c, fs), Some (FileError (dir c) (escape key) (PathError EACCES))))
  ∧ (path ∉ denied fs → ∀ e, r_err r = Some e →
     ∃ fs', PutReader fuel key r (c, fs)
            = Some ((c, fs'), Some (FileError (dir c) (escape key) e))
          ∧ files fs' = <[path := encode (useDeflate c) (r_data r)]> (files fs)).
Proof.
  intros path. unfold PutReader, writeFile, os_Create, io_Copy. fold path. split.
  - intros Hd. by rewrite decide_True.
  - intros Hd e He. rewrite decide_False by done. rewrite He.
    eexists. split; [reflexivity|]. simpl. unfold encode.
    rewrite insert_insert_eq. by destruct (useDeflate c).
Qed.

Lemma PutReader_write_errors_witness :
  (Join (dir cache_ab) (escape "a") ∉ denied fs_ab)
  ∧ ∃ fs', @PutReader StoredFrame 10 "a" (mkReader (B "xy") (Some ErrRead)) (cache_ab, fs_ab)
           = Some ((cache_ab, fs'), Some (FileError "/tmp/stash" "a" ErrRead))
         ∧ files fs' !! "/tmp/stash/a"%string = Some (B "xy").
Proof.
  assert (Hd : Join (dir cache_ab) (escape "a") ∉ denied fs_ab).
  { vm_compute. intros Hin. discriminate Hin. }
  split; [exact Hd|].
  destruct (@PutReader_write_errors StoredFrame 10 "a"
              (mkReader (B "xy") (Some ErrRead)) cache_ab fs_ab) as [_ Hread].
  destruct (Hread Hd ErrRead eq_refl) as (fs' & Hput & Hfiles).
  exists fs'. split; [exact Hput|]. rewrite Hfiles. apply lookup_insert_eq.
Defined.

(** X11. In every state where [key] is mapped to an element of the list,
    [addMeta] keeps the number of entries while it still adds one to
    [capUsed] and the whole new size to [sizeUsed]. *)
Theorem addMeta_on_cached_key (key path : string) (n : Z) (c : Cache) (item : Element) :
  NoDup (eid <$> items (list_ c)) →
  m c !! key = Some item → item ∈ items (list_ c) →
  length (items (list_ (addMeta key path n c))) = length (items (list_ c))
  ∧ capUsed (addMeta key path n c) = add64 (capUsed c) 1
  ∧ sizeUsed (addMeta key path n c) = add64 (sizeUsed c) n.
Proof.
  intros Hnd Hm Hin. unfold addMeta. rewrite Hm. simpl.
  split; [by apply length_filter_one|done].
Qed.

Lemma addMeta_on_cached_key_witness :
  NoDup (eid <$> items (list_ cache_ab))
  ∧ m cache_ab !! "a"%string = Some elem_a
  ∧ elem_a ∈ items (list_ cache_ab)
  ∧ length (items (list_ (addMeta "a" "/tmp/stash/a" 3 cache_ab))) = 2%nat
  ∧ capUsed (addMeta "a" "/tmp/stash/a" 3 cache_ab) = 3
  ∧ sizeUsed (addMeta "a" "/tmp/stash/a" 3 cache_ab) = 13.
Proof.
  assert (Hnd : NoDup (eid <$> items (list_ cache_ab))).
  { apply (bool_decide_unpack _). vm_compute. exact I. }
  assert (Hm : m cache_ab !! "a"%string = Some elem_a) by reflexivity.
  assert (Hin : elem_a ∈ items (list_ cache_ab)).
  { simpl. apply elem_of_cons. right. apply elem_of_cons. by left. }
  split; [exact Hnd|]. split; [exact Hm|]. split; [exact Hin|].
  destruct (addMeta_on_cached_key "a" "/tmp/stash/a" 3 cache_ab elem_a Hnd Hm Hin)
    as (Hlen & Hcap & Hsize).
  split; [exact Hlen|]. split; [exact Hcap|exact Hsize].
Defined.

(** ** [PutFile] *)






Example PutFile_missing_source :
  @PutFile StoredFrame 10 "f" "/tmp/upload" (cache_new, emptyFS)
  = Some ((cache_new, emptyFS),
          Some (FileError "/tmp/upload" "upload" (PathError ENOENT)))
  ∧ @PutFile StoredFrame 10 "f" "/tmp/upload/" (cache_new, emptyFS)
    = Some ((cache_new, emptyFS),
            Some (FileError "/tmp/upload/" "upload" (PathError ENOENT)))
  ∧ @PutFile StoredFrame 10 "f" "" (cache_new, emptyFS)
    = Some ((cache_new, emptyFS), Some (FileError "" "." (PathError ENOENT))).
Proof. repeat split; reflexivity. Qed.

(** ** What [Warmup] indexes *)

Lemma cut_prefix_Some (p s r : string) : cut_prefix p s = Some r → s = p +:+ r.
Proof.
  revert s. induction p as [|a p IH]; intros s; [by intros [= ->]|].
  destruct s as [|b s]; [done|]. cbn [cut_prefix].
  destruct (Ascii.eqb_spec a b) as [->|]; [|done].
  intros Hcut. change (String b s = String b (p +:+ r)). f_equal. by apply IH.
Qed.

Lemma entry_of_Some (d : string) (pb : string * bytes) (i : FileInfo) :
  entry_of d pb = Some i → pb.1 = Join d (Name i) ∧ FSize i = len64 pb.2.
Proof.
  unfold entry_of. destruct (cut_prefix (d +:+ "/") pb.1) as [name|] eqn:Hcut; [|done].
  destruct (file_name name); [|done]. intros [= <-]. simpl. split; [|done].
  apply cut_prefix_Some in Hcut. rewrite Hcut. unfold Join. apply append_assoc.
Qed.

(** A directory listing names every file once. *)
Lemma os_ReadDir_NoDup (d : string) (fs : FS) (infos : list FileInfo) :
  os_ReadDir d fs = Ok infos → NoDup (Name <$> infos).
Proof.
  unfold os_ReadDir. destruct (decide (d ∈ denied fs)); [done|]. intros [= <-].
  pose proof (NoDup_fst_map_to_list (files fs)) as Hnd.
  induction (map_to_list (files fs)) as [|pb l IH]; [constructor|].
  rewrite fmap_cons in Hnd. apply NoDup_cons in Hnd as [Hnot Hnd].
  cbn [omap list_omap]. destruct (entry_of d pb) as [i|] eqn:Hi; [|by apply IH].
  rewrite fmap_cons. apply NoDup_cons. split; [|by apply IH].
  intros Hin. apply list_elem_of_fmap in Hin as (j & Hname & Hj).
  apply list_elem_of_omap in Hj as (pb' & Hpb' & Hj).
  apply entry_of_Some in Hi as [Hp _], Hj as [Hp' _].
  apply Hnot. rewrite Hp, Hname, <- Hp'. by apply list_elem_of_fmap_2.
Qed.

Lemma Warmup_fold_totals (infos : list FileInfo) (c : Cache) :
  NoDup (Name <$> infos) →
  Forall (λ i, m c !! Name i = None) infos →
  Forall (λ i, 0 <= FSize i) infos →
  0 <= sizeUsed c → sizeUsed c + sumZ (FSize <$> infos) <= max_int64 →
  0 <= capUsed c → capUsed c + Z.of_nat (length infos) <= max_int64 →
  let c' := foldl (λ c file, addMeta (Name file) (Join (dir c) (Name file)) (FSize file) c)
                  c infos in
  recency c' = reverse (Name <$> infos) ++ recency c
  ∧ entry_sizes c' = reverse (FSize <$> infos) ++ entry_sizes c
  ∧ sizeUsed c' = sizeUsed c + sumZ (FSize <$> infos)
  ∧ capUsed c' = capUsed c + Z.of_nat (length infos).
Proof.
  revert c. induction infos as [|i infos IH]; intros c Hnd Hm Hnn Hs0 Hs Hc0 Hc.
  { simpl. change (sumZ []) with 0. repeat split; lia. }
  rewrite fmap_cons in Hnd. apply NoDup_cons in Hnd as [Hnot Hnd].
  apply Forall_cons in Hm as [Hmi Hm]. apply Forall_cons in Hnn as [Hni Hnn].
  rewrite fmap_cons, sumZ_cons in Hs. rewrite length_cons in Hc.
  pose proof (sumZ_nonneg (FSize <$> infos) ltac:(by apply Forall_fmap)) as Hpos.
  set (c1 := addMeta (Name i) (Join (dir c) (Name i)) (FSize i) c).
  assert (Hc1 : recency c1 = Name i :: recency c
                ∧ entry_sizes c1 = FSize i :: entry_sizes c
                ∧ sizeUsed c1 = sizeUsed c + FSize i
                ∧ capUsed c1 = capUsed c + 1
                ∧ m c1 = <[Name i := mkElement (nextid (list_ c))
                             (mkMeta (Name i) (FSize i) (Join (dir c) (Name i)))]> (m c)).
  { subst c1. unfold addMeta, PushFront, recency, entry_sizes. rewrite Hmi.
    cbn [list_ items sizeUsed capUsed m]. unfold add64, max_int64 in *.
    rewrite !wrap64_id by (unfold in_int64, min_int64, max_int64; lia). done. }
  destruct Hc1 as (Hr1 & He1 & Hs1 & Hcu1 & Hm1).
  cbn [foldl]. fold c1.
  destruct (IH c1) as (Hr & He & Hsu & Hcu); try done; try lia.
  { apply Forall_forall. intros j Hj. rewrite Hm1, lookup_insert_ne.
    - by apply (proj1 (Forall_forall _ _) Hm).
    - intros Heq. apply Hnot. rewrite Heq. by apply list_elem_of_fmap_2. }
  rewrite Hr, He, Hsu, Hcu, Hr1, He1, Hs1, Hcu1.
  rewrite !fmap_cons, !reverse_cons, sumZ_cons, length_cons, <- !app_assoc.
  repeat split; simpl; lia.
Qed.

(** X13. [Warmup] on a freshly constructed cache enforces no budget: it
    indexes every listed file exactly once, the last listed as the most
    recently used, records each file's on-disk size, and ends with
    [sizeUsed] the total of those sizes and [capUsed] the number of files,
    whatever [size] and [cap] are; it deletes and evicts nothing.  When the
    directory cannot be listed it returns the error and the cache stays
    empty. *)
Theorem Warmup_totals (d : string) (sz cp : Z) (deflate : bool) (c0 : Cache) (fs : FS) :
  New d sz cp deflate = Ok c0 →
  match os_ReadDir (dir c0) fs with
  | Err e => Warmup (c0, fs) = ((c0, fs), Some e)
  | Ok infos =>
      Forall (λ i, 0 <= FSize i) infos →
      sumZ (FSize <$> infos) <= max_int64 →
      Z.of_nat (length infos) <= max_int64 →
      ∃ c1, Warmup (c0, fs) = ((c1, fs), None)
          ∧ recency c1 = reverse (Name <$> infos)
          ∧ entry_sizes c1 = reverse (FSize <$> infos)
          ∧ sizeUsed c1 = sumZ (FSize <$> infos)
          ∧ capUsed c1 = Z.of_nat (length infos)
  end.
Proof.
  intros Hnew.
  assert (Hc0 : m c0 = ∅ ∧ sizeUsed c0 = 0 ∧ capUsed c0 = 0 ∧ items (list_ c0) = []).
  { unfold New in Hnew. destruct (negb (validDir d)); [done|].
    destruct (sz <=? 0); [done|]. destruct (cp <=? 0); [done|].
    by injection Hnew as <-. }
  destruct Hc0 as (Hm0 & Hs0 & Hcu0 & Hl0).
  unfold Warmup. destruct (os_ReadDir (dir c0) fs) as [infos|e] eqn:Hdir; [|done].
  intros Hnn Hsum Hlen. eexists. split; [reflexivity|].
  assert (Hpos : 0 <= sumZ (FSize <$> infos)).
  { apply sumZ_nonneg. by apply Forall_fmap. }
  destruct (Warmup_fold_totals infos c0) as (Hr & He & Hsu & Hcu);
    rewrite ?Hs0, ?Hcu0; try done; try lia.
  - by apply (os_ReadDir_NoDup (dir c0) fs).
  - apply Forall_forall. intros i _. by rewrite Hm0, lookup_empty.
  - unfold recency, entry_sizes in *. rewrite Hl0 in Hr, He.
    rewrite Hr, He, Hsu, Hcu, Hs0, Hcu0, !app_nil_r. repeat split; lia.
Qed.

Lemma Warmup_totals_witness :
  New "/tmp/stash/" 5 1 true = Ok (mkCache "/tmp/stash" 5 1 0 0 list_New ∅ true)
  ∧ ∃ c1, Warmup (mkCache "/tmp/stash" 5 1 0 0 list_New ∅ true, fs_warm)
          = ((c1, fs_warm), None)
        ∧ length (recency c1) = 2%nat
        ∧ sizeUsed c1 = 35
        ∧ capUsed c1 = 2.
Proof.
  assert (Hnew : New "/tmp/stash/" 5 1 true
                 = Ok (mkCache "/tmp/stash" 5 1 0 0 list_New ∅ true)) by reflexivity.
  split; [exact Hnew|].
  pose proof (Warmup_totals "/tmp/stash/" 5 1 true _ fs_warm Hnew) as Htot.
  destruct (os_ReadDir (dir (mkCache "/tmp/stash" 5 1 0 0 list_New ∅ true)) fs_warm)
    as [infos|e] eqn:Hdir.
  - assert (Hinfos : Forall (λ i, 0 <= FSize i) infos
                     ∧ sumZ (FSize <$> infos) = 35
                     ∧ length infos = 2%nat).
    { vm_compute in Hdir. injection Hdir as <-.
      split; [|split; reflexivity]. repeat constructor; by vm_compute. }
    destruct Hinfos as (Hnn & Hsum & Hlen).
    destruct Htot as (c1 & Hw & Hr & _ & Hsu & Hcu);
      [exact Hnn|rewrite Hsum; by vm_compute|rewrite Hlen; by vm_compute|].
    exists c1. split; [exact Hw|]. rewrite Hr, Hsu, Hcu, Hsum, Hlen.
    rewrite length_reverse, length_fmap, Hlen. by repeat split.
  - vm_compute in Hdir. discriminate Hdir.
Defined.

(** ** No eviction without need *)


